(** * Roller-coaster builder: the track store and its loop synthesizer

    A shallow embedding of [client/src/lib/stores/useRollerCoaster.tsx],
    and of the controls of [client/src/components/game/GameUI.tsx] that
    call it.

    Conventions of the embedding.
    - A JavaScript [number] that carries a coordinate, a tilt, a progress or
      a speed is a real number ([R]): the arithmetic of the source is read
      as exact arithmetic, [Math.PI] as [PI], [Math.cos] as [cos].
    - [pointCounter] only ever holds a natural number and is only ever
      incremented (exactly so in double precision below 2^53, out of the
      reach of a session); it is an [N], and [`point-${n}`] prints it in
      decimal.
    - [THREE.Vector3] comes from three.js, a dependency of the repository;
      [Vector3] gives the methods the store calls, as three.js defines
      them.  The store builds a new vector on every write, so a stored
      position is modelled by its value; [Objects] models the references
      where sharing matters.
    - An array is a [list]; an array index is a [Z] because [findIndex]
      answers [-1] when nothing matches.
    - [string | null] and [Vector3 | null] are [option]s.
    - The zustand store is the record [RollerCoasterState]; [set (partial)]
      is a composition of the field updaters [with_*]; the module-level
      variable [pointCounter] lives next to it in [World]. *)

From Stdlib Require Import String Ascii Bool ZArith NArith Lia.
From Stdlib Require Import Reals Lra List.
From Stdlib Require Import Permutation DecimalString DecimalPos DecimalN.
Import ListNotations.

Local Open Scope Z_scope.

(** ** JavaScript values the store relies on *)

Abbreviation number := R (only parsing).

(** [a || b] on numbers: [0] is the falsy number. *)
Definition number_or (a b : number) : number :=
  if Req_dec_T a 0%R then b else a.

(** A failed property access: reading a field of [undefined]. *)
Inductive JsError : Type :=
| TypeError.

Inductive completion (A : Type) : Type :=
| Normal (a : A)
| Throw (e : JsError).

Arguments Normal {A} a.
Arguments Throw {A} e.

Definition bind {A B : Type} (c : completion A) (k : A -> completion B)
  : completion B :=
  match c with
  | Normal a => k a
  | Throw e => Throw e
  end.

Notation "x <- c ;; k" := (bind c (fun x => k))
  (at level 61, c at next level, right associativity).

(** [arr[i]]: [undefined] ([None]) outside [0 .. length-1]. *)
Definition index {A : Type} (arr : list A) (i : Z) : option A :=
  if i <? 0 then None else nth_error arr (Z.to_nat i).

(** [arr[i].field ...]: the element must be there. *)
Definition defined {A : Type} (o : option A) : completion A :=
  match o with
  | Some a => Normal a
  | None => Throw TypeError
  end.

(** [Array.prototype.findIndex]. *)
Fixpoint findIndexFrom {A : Type} (f : A -> bool) (arr : list A) (k : Z) : Z :=
  match arr with
  | [] => -1
  | a :: rest => if f a then k else findIndexFrom f rest (k + 1)
  end.

Definition findIndex {A : Type} (f : A -> bool) (arr : list A) : Z :=
  findIndexFrom f arr 0.

(** [Array.prototype.slice (start, end)]: a negative bound counts from the
    end, every bound is clamped to the array. *)
Definition relativeIndex (len k : Z) : Z :=
  if k <? 0 then Z.max (len + k) 0 else Z.min k len.

Definition slice {A : Type} (arr : list A) (start : Z) (stop : option Z)
  : list A :=
  let len := Z.of_nat (length arr) in
  let from := relativeIndex len start in
  let to := match stop with
            | Some e => relativeIndex len e
            | None => len
            end in
  firstn (Z.to_nat (to - from)) (skipn (Z.to_nat from) arr).

(** The template literal [`point-${n}`]. *)
Definition numberToString (n : N) : string :=
  NilZero.string_of_uint (N.to_uint n).

Definition pointId (n : N) : string :=
  String.append "point-" (numberToString n).

(** ** three.js vectors, by value *)

Module Vector3.

Record t : Type := mk { x : number; y : number; z : number }.

(** [clone () { return new Vector3 (this.x, this.y, this.z) }] *)
Definition clone (v : t) : t := mk (x v) (y v) (z v).

(** [a.sub (b)]: componentwise difference. *)
Definition sub (a b : t) : t :=
  mk (x a - x b)%R (y a - y b)%R (z a - z b)%R.

(** [length () { return Math.sqrt (x * x + y * y + z * z) }] *)
Definition length (v : t) : number :=
  sqrt (x v * x v + y v * y v + z v * z v)%R.

Definition multiplyScalar (v : t) (s : number) : t :=
  mk (x v * s)%R (y v * s)%R (z v * s)%R.

(** [divideScalar (s) { return this.multiplyScalar (1 / s) }] *)
Definition divideScalar (v : t) (s : number) : t :=
  multiplyScalar v (1 / s)%R.

(** [normalize () { return this.divideScalar (this.length () || 1) }] *)
Definition normalize (v : t) : t :=
  divideScalar v (number_or (length v) 1%R).

(** The assignment [v.y = r]. *)
Definition setY (v : t) (r : number) : t := mk (x v) r (z v).

End Vector3.

(** ** The data model *)

Inductive CoasterMode : Type :=
| build
| ride
| preview.

Record TrackPoint : Type := mkTrackPoint {
  id : string;
  position : Vector3.t;
  tilt : number
}.

Record RollerCoasterState : Type := mkState {
  mode : CoasterMode;
  trackPoints : list TrackPoint;
  selectedPointId : option string;
  rideProgress : number;
  isRiding : bool;
  rideSpeed : number;
  isDraggingPoint : bool;
  isAddingPoints : bool;
  isLooped : bool;
  hasChainLift : bool;
  showWoodSupports : bool;
  isNightMode : bool;
  cameraTarget : option Vector3.t
}.

(** The store together with the module variable [pointCounter]. *)
Record World : Type := mkWorld {
  pointCounter : N;
  store : RollerCoasterState
}.

Definition initialState : RollerCoasterState :=
  {| mode := build;
     trackPoints := [];
     selectedPointId := None;
     rideProgress := 0%R;
     isRiding := false;
     rideSpeed := 1%R;
     isDraggingPoint := false;
     isAddingPoints := true;
     isLooped := false;
     hasChainLift := true;
     showWoodSupports := false;
     isNightMode := false;
     cameraTarget := None |}.

Definition initialWorld : World :=
  {| pointCounter := 0%N; store := initialState |}.

(** ** [set]: merging a partial state, one field at a time *)

Definition with_mode (v : CoasterMode) (s : RollerCoasterState) :=
  mkState v (trackPoints s) (selectedPointId s) (rideProgress s) (isRiding s)
    (rideSpeed s) (isDraggingPoint s) (isAddingPoints s) (isLooped s)
    (hasChainLift s) (showWoodSupports s) (isNightMode s) (cameraTarget s).

Definition with_trackPoints (v : list TrackPoint) (s : RollerCoasterState) :=
  mkState (mode s) v (selectedPointId s) (rideProgress s) (isRiding s)
    (rideSpeed s) (isDraggingPoint s) (isAddingPoints s) (isLooped s)
    (hasChainLift s) (showWoodSupports s) (isNightMode s) (cameraTarget s).

Definition with_selectedPointId (v : option string) (s : RollerCoasterState) :=
  mkState (mode s) (trackPoints s) v (rideProgress s) (isRiding s)
    (rideSpeed s) (isDraggingPoint s) (isAddingPoints s) (isLooped s)
    (hasChainLift s) (showWoodSupports s) (isNightMode s) (cameraTarget s).

Definition with_rideProgress (v : number) (s : RollerCoasterState) :=
  mkState (mode s) (trackPoints s) (selectedPointId s) v (isRiding s)
    (rideSpeed s) (isDraggingPoint s) (isAddingPoints s) (isLooped s)
    (hasChainLift s) (showWoodSupports s) (isNightMode s) (cameraTarget s).

Definition with_isRiding (v : bool) (s : RollerCoasterState) :=
  mkState (mode s) (trackPoints s) (selectedPointId s) (rideProgress s) v
    (rideSpeed s) (isDraggingPoint s) (isAddingPoints s) (isLooped s)
    (hasChainLift s) (showWoodSupports s) (isNightMode s) (cameraTarget s).

Definition with_rideSpeed (v : number) (s : RollerCoasterState) :=
  mkState (mode s) (trackPoints s) (selectedPointId s) (rideProgress s)
    (isRiding s) v (isDraggingPoint s) (isAddingPoints s) (isLooped s)
    (hasChainLift s) (showWoodSupports s) (isNightMode s) (cameraTarget s).

Definition with_isDraggingPoint (v : bool) (s : RollerCoasterState) :=
  mkState (mode s) (trackPoints s) (selectedPointId s) (rideProgress s)
    (isRiding s) (rideSpeed s) v (isAddingPoints s) (isLooped s)
    (hasChainLift s) (showWoodSupports s) (isNightMode s) (cameraTarget s).

Definition with_isAddingPoints (v : bool) (s : RollerCoasterState) :=
  mkState (mode s) (trackPoints s) (selectedPointId s) (rideProgress s)
    (isRiding s) (rideSpeed s) (isDraggingPoint s) v (isLooped s)
    (hasChainLift s) (showWoodSupports s) (isNightMode s) (cameraTarget s).

Definition with_isLooped (v : bool) (s : RollerCoasterState) :=
  mkState (mode s) (trackPoints s) (selectedPointId s) (rideProgress s)
    (isRiding s) (rideSpeed s) (isDraggingPoint s) (isAddingPoints s) v
    (hasChainLift s) (showWoodSupports s) (isNightMode s) (cameraTarget s).

Definition with_hasChainLift (v : bool) (s : RollerCoasterState) :=
  mkState (mode s) (trackPoints s) (selectedPointId s) (rideProgress s)
    (isRiding s) (rideSpeed s) (isDraggingPoint s) (isAddingPoints s)
    (isLooped s) v (showWoodSupports s) (isNightMode s) (cameraTarget s).

Definition with_showWoodSupports (v : bool) (s : RollerCoasterState) :=
  mkState (mode s) (trackPoints s) (selectedPointId s) (rideProgress s)
    (isRiding s) (rideSpeed s) (isDraggingPoint s) (isAddingPoints s)
    (isLooped s) (hasChainLift s) v (isNightMode s) (cameraTarget s).

Definition with_isNightMode (v : bool) (s : RollerCoasterState) :=
  mkState (mode s) (trackPoints s) (selectedPointId s) (rideProgress s)
    (isRiding s) (rideSpeed s) (isDraggingPoint s) (isAddingPoints s)
    (isLooped s) (hasChainLift s) (showWoodSupports s) v (cameraTarget s).

Definition with_cameraTarget (v : option Vector3.t) (s : RollerCoasterState) :=
  mkState (mode s) (trackPoints s) (selectedPointId s) (rideProgress s)
    (isRiding s) (rideSpeed s) (isDraggingPoint s) (isAddingPoints s)
    (isLooped s) (hasChainLift s) (showWoodSupports s) (isNightMode s) v.

(** Strict equality [a === b] between a [string | null] and a string. *)
Definition nullable_eqb (a : option string) (b : string) : bool :=
  match a with
  | Some a' => String.eqb a' b
  | None => false
  end.

(** ** The operations that only touch the store *)

Definition setMode (m : CoasterMode) (s : RollerCoasterState) :=
  with_mode m s.

Definition setCameraTarget (target : option Vector3.t) (s : RollerCoasterState) :=
  with_cameraTarget target s.

Definition setIsDraggingPoint (dragging : bool) (s : RollerCoasterState) :=
  with_isDraggingPoint dragging s.

Definition setIsAddingPoints (adding : bool) (s : RollerCoasterState) :=
  with_isAddingPoints adding s.

Definition setIsLooped (looped : bool) (s : RollerCoasterState) :=
  with_isLooped looped s.

Definition setHasChainLift (hasChain : bool) (s : RollerCoasterState) :=
  with_hasChainLift hasChain s.

Definition setShowWoodSupports (show : bool) (s : RollerCoasterState) :=
  with_showWoodSupports show s.

Definition setIsNightMode (night : bool) (s : RollerCoasterState) :=
  with_isNightMode night s.

Definition updateTrackPoint (pid : string) (p : Vector3.t)
  (s : RollerCoasterState) : RollerCoasterState :=
  with_trackPoints
    (map (fun point =>
            if String.eqb (id point) pid
            then mkTrackPoint (id point) (Vector3.clone p) (tilt point)
            else point)
         (trackPoints s))
    s.

Definition updateTrackPointTilt (pid : string) (t : number)
  (s : RollerCoasterState) : RollerCoasterState :=
  with_trackPoints
    (map (fun point =>
            if String.eqb (id point) pid
            then mkTrackPoint (id point) (position point) t
            else point)
         (trackPoints s))
    s.

Definition removeTrackPoint (pid : string) (s : RollerCoasterState)
  : RollerCoasterState :=
  with_selectedPointId
    (if nullable_eqb (selectedPointId s) pid then None else selectedPointId s)
    (with_trackPoints
       (filter (fun point => negb (String.eqb (id point) pid)) (trackPoints s))
       s).

Definition selectPoint (sel : option string) (s : RollerCoasterState) :=
  with_selectedPointId sel s.

Definition clearTrack (s : RollerCoasterState) : RollerCoasterState :=
  with_isRiding false
    (with_rideProgress 0%R
       (with_selectedPointId None
          (with_trackPoints [] s))).

Definition setRideProgress (progress : number) (s : RollerCoasterState) :=
  with_rideProgress progress s.

Definition setIsRiding (riding : bool) (s : RollerCoasterState) :=
  with_isRiding riding s.

Definition setRideSpeed (speed : number) (s : RollerCoasterState) :=
  with_rideSpeed speed s.

Definition startRide (s : RollerCoasterState) : RollerCoasterState :=
  if 2 <=? Z.of_nat (length (trackPoints s))
  then with_rideProgress 0%R (with_isRiding true (with_mode ride s))
  else s.

Definition stopRide (s : RollerCoasterState) : RollerCoasterState :=
  with_rideProgress 0%R (with_isRiding false (with_mode build s)).

(** ** The operations that mint ids *)

(** [addTrackPoint], lines 82-87. *)
Definition addTrackPoint (p : Vector3.t) (w : World) : World :=
  let counter := N.succ (pointCounter w) in
  let pid := pointId counter in
  mkWorld counter
    (with_trackPoints
       (trackPoints (store w) ++ [mkTrackPoint pid (Vector3.clone p) 0%R])
       (store w)).

(** *** [createLoopAtPoint], lines 112-211 *)

Definition loopRadius : number := 10%R.
Definition numLoopPoints : Z := 16.

(** Lines 120-130: the forward direction, from the anchor position [pos]
    and the point before the anchor. *)
Definition loopDirection (points : list TrackPoint) (pointIndex : Z)
  (pos : Vector3.t) : completion Vector3.t :=
  let direction := Vector3.mk 1 0 0 in
  if pointIndex >? 0 then
    prevPoint <- defined (index points (pointIndex - 1)) ;;
    let direction :=
      Vector3.normalize (Vector3.sub (Vector3.clone pos) (position prevPoint)) in
    let direction := Vector3.setY direction 0%R in
    if Rlt_dec (Vector3.length direction) (1 / 10)%R
    then Normal (Vector3.mk 1 0 0)
    else Normal (Vector3.normalize direction)
  else Normal direction.

(** The values the counter [i] of [for (let i = 0; i <= last; i++)] takes. *)
Definition countTo (last : Z) : list Z :=
  map Z.of_nat (seq 0 (Z.to_nat (last + 1))).

(** Lines 157-179: one turn of the loop, on the pair of [pointCounter] and
    [allPoints]. *)
Definition loopTurn (direction : Vector3.t)
  (loopCenterX loopCenterY loopCenterZ : number)
  (acc : N * list TrackPoint) (i : Z) : N * list TrackPoint :=
  let angle := (- PI / 2 + IZR i / IZR numLoopPoints * PI * 2)%R in
  let forwardOffset := (cos angle * loopRadius)%R in
  let heightOffset := (sin angle * loopRadius)%R in
  let newPos :=
    Vector3.mk
      (loopCenterX + Vector3.x direction * forwardOffset)%R
      (loopCenterY + heightOffset)%R
      (loopCenterZ + Vector3.z direction * forwardOffset)%R in
  if i =? 0 then acc
  else if i =? numLoopPoints then acc
  else
    let counter := N.succ (fst acc) in
    (counter, snd acc ++ [mkTrackPoint (pointId counter) newPos 0%R]).

(** Lines 132-201: the run of new points, with the counter they leave. *)
Definition loopPoints (pos direction : Vector3.t) (counter0 : N)
  : N * list TrackPoint :=
  let allPoints := [] in
  let loopCenterForward := loopRadius in
  let loopCenterX := (Vector3.x pos + Vector3.x direction * loopCenterForward)%R in
  let loopCenterZ := (Vector3.z pos + Vector3.z direction * loopCenterForward)%R in
  let loopCenterY := (Vector3.y pos + loopRadius)%R in
  let counter := N.succ counter0 in
  let allPoints :=
    allPoints ++
    [mkTrackPoint (pointId counter)
       (Vector3.mk
          (Vector3.x pos + Vector3.x direction * 3)%R
          (Vector3.y pos + 2)%R
          (Vector3.z pos + Vector3.z direction * 3)%R)
       0%R] in
  let '(counter, allPoints) :=
    fold_left (loopTurn direction loopCenterX loopCenterY loopCenterZ)
      (countTo numLoopPoints) (counter, allPoints) in
  let exitForward := (loopCenterForward + loopRadius)%R in
  let counter := N.succ counter in
  let allPoints :=
    allPoints ++
    [mkTrackPoint (pointId counter)
       (Vector3.mk
          (Vector3.x pos + Vector3.x direction * (exitForward + 3))%R
          (Vector3.y pos + 2)%R
          (Vector3.z pos + Vector3.z direction * (exitForward + 3))%R)
       0%R] in
  let counter := N.succ counter in
  let allPoints :=
    allPoints ++
    [mkTrackPoint (pointId counter)
       (Vector3.mk
          (Vector3.x pos + Vector3.x direction * (exitForward + 8))%R
          (Vector3.y pos)
          (Vector3.z pos + Vector3.z direction * (exitForward + 8))%R)
       0%R] in
  (counter, allPoints).

Definition createLoopAtPoint (pid : string) (w : World) : completion World :=
  let state := store w in
  let pointIndex :=
    findIndex (fun p => String.eqb (id p) pid) (trackPoints state) in
  if pointIndex =? -1 then Normal w
  else
    basePoint <- defined (index (trackPoints state) pointIndex) ;;
    let pos := position basePoint in
    direction <- loopDirection (trackPoints state) pointIndex pos ;;
    let '(counter, allPoints) := loopPoints pos direction (pointCounter w) in
    let newTrackPoints :=
      slice (trackPoints state) 0 (Some (pointIndex + 1))
      ++ allPoints
      ++ slice (trackPoints state) (pointIndex + 1) None in
    Normal (mkWorld counter (with_trackPoints newTrackPoints state)).

(** ** The public operations as a transition system *)

Inductive Op : Type :=
| OpSetMode (m : CoasterMode)
| OpSetCameraTarget (target : option Vector3.t)
| OpAddTrackPoint (p : Vector3.t)
| OpUpdateTrackPoint (pid : string) (p : Vector3.t)
| OpUpdateTrackPointTilt (pid : string) (t : number)
| OpRemoveTrackPoint (pid : string)
| OpCreateLoopAtPoint (pid : string)
| OpSelectPoint (sel : option string)
| OpClearTrack
| OpSetRideProgress (progress : number)
| OpSetIsRiding (riding : bool)
| OpSetRideSpeed (speed : number)
| OpSetIsDraggingPoint (dragging : bool)
| OpSetIsAddingPoints (adding : bool)
| OpSetIsLooped (looped : bool)
| OpSetHasChainLift (hasChain : bool)
| OpSetShowWoodSupports (show : bool)
| OpSetIsNightMode (night : bool)
| OpStartRide
| OpStopRide.

(** An operation of the store leaves [pointCounter] alone. *)
Definition onStore (f : RollerCoasterState -> RollerCoasterState) (w : World)
  : completion World :=
  Normal (mkWorld (pointCounter w) (f (store w))).

Definition step (op : Op) (w : World) : completion World :=
  match op with
  | OpSetMode m => onStore (setMode m) w
  | OpSetCameraTarget target => onStore (setCameraTarget target) w
  | OpAddTrackPoint p => Normal (addTrackPoint p w)
  | OpUpdateTrackPoint pid p => onStore (updateTrackPoint pid p) w
  | OpUpdateTrackPointTilt pid t => onStore (updateTrackPointTilt pid t) w
  | OpRemoveTrackPoint pid => onStore (removeTrackPoint pid) w
  | OpCreateLoopAtPoint pid => createLoopAtPoint pid w
  | OpSelectPoint sel => onStore (selectPoint sel) w
  | OpClearTrack => onStore clearTrack w
  | OpSetRideProgress progress => onStore (setRideProgress progress) w
  | OpSetIsRiding riding => onStore (setIsRiding riding) w
  | OpSetRideSpeed speed => onStore (setRideSpeed speed) w
  | OpSetIsDraggingPoint dragging => onStore (setIsDraggingPoint dragging) w
  | OpSetIsAddingPoints adding => onStore (setIsAddingPoints adding) w
  | OpSetIsLooped looped => onStore (setIsLooped looped) w
  | OpSetHasChainLift hasChain => onStore (setHasChainLift hasChain) w
  | OpSetShowWoodSupports show => onStore (setShowWoodSupports show) w
  | OpSetIsNightMode night => onStore (setIsNightMode night) w
  | OpStartRide => onStore startRide w
  | OpStopRide => onStore stopRide w
  end.

(** Running a sequence of calls, stopping at the first exception. *)
Fixpoint run (ops : list Op) (w : World) : completion World :=
  match ops with
  | [] => Normal w
  | op :: rest => w' <- step op w ;; run rest w'
  end.

Definition reachable (w : World) : Prop :=
  exists ops, run ops initialWorld = Normal w.

Definition ids (points : list TrackPoint) : list string := map id points.

(** ** Vectors as objects

    A [THREE.Vector3] is a mutable object: the store holds a reference to
    it, and so may its caller.  [Objects] models the references for
    [updateTrackPoint], where a [heap] maps each reference to the vector it
    holds at the moment. *)

Module Objects.

Definition ref := nat.
Definition heap := list Vector3.t.

Definition read (h : heap) (r : ref) : option Vector3.t := nth_error h r.

(** [new THREE.Vector3 (...)]: a reference nobody holds yet. *)
Definition alloc (v : Vector3.t) (h : heap) : ref * heap :=
  (List.length h, h ++ [v]).

(** An assignment to the fields of the object [r], in place. *)
Fixpoint write (h : heap) (r : ref) (v : Vector3.t) : heap :=
  match h, r with
  | [], _ => []
  | _ :: rest, O => v :: rest
  | v0 :: rest, S r' => v0 :: write rest r' v
  end.

(** [r.clone ()]: a new object holding what [r] holds now; the call fails
    on a reference that designates no vector. *)
Definition clone (r : ref) (h : heap) : completion (ref * heap) :=
  v <- defined (read h r) ;;
  Normal (alloc v h).

(** A track point whose [position] is a reference. *)
Record TrackPointRef : Type := mkTrackPointRef {
  idOf : string;
  positionOf : ref;
  tiltOf : number
}.

(** The callback of [map] in lines 91-93, run over the array from left to
    right; each call of [position.clone ()] changes the heap. *)
Fixpoint mapPoints (pid : string) (p : ref) (points : list TrackPointRef)
  (h : heap) : completion (list TrackPointRef * heap) :=
  match points with
  | [] => Normal ([], h)
  | point :: rest =>
      if String.eqb (idOf point) pid then
        c <- clone p h ;;
        r <- mapPoints pid p rest (snd c) ;;
        Normal (mkTrackPointRef (idOf point) (fst c) (tiltOf point) :: fst r, snd r)
      else
        r <- mapPoints pid p rest h ;;
        Normal (point :: fst r, snd r)
  end.

(** [updateTrackPoint], lines 89-95, on the track and the heap. *)
Definition updateTrackPoint (pid : string) (p : ref)
  (points : list TrackPointRef) (h : heap)
  : completion (list TrackPointRef * heap) :=
  mapPoints pid p points h.

(** What a track of references denotes: each position read from the heap. *)
Definition valueOf (h : heap) (point : TrackPointRef) : option TrackPoint :=
  match read h (positionOf point) with
  | Some v => Some (mkTrackPoint (idOf point) v (tiltOf point))
  | None => None
  end.

Fixpoint valuesOf (h : heap) (points : list TrackPointRef)
  : option (list TrackPoint) :=
  match points with
  | [] => Some []
  | point :: rest =>
      match valueOf h point, valuesOf h rest with
      | Some v, Some vs => Some (v :: vs)
      | _, _ => None
      end
  end.

(** How [updateTrackPoint (pid, p)] relates a point of the old track to the
    point at the same index of the new track, when [p] held [v] at the call.
    A point with the id keeps its id and tilt and gets a position that is
    an object of its own: it holds [v], it did not exist before the call,
    it is not [p], and whatever is written into [p] later it still holds
    [v].  A point with another id is the same point. *)
Definition updated (pid : string) (p : ref) (v : Vector3.t) (h h' : heap)
  (point point' : TrackPointRef) : Prop :=
  if String.eqb (idOf point) pid then
    idOf point' = idOf point /\
    tiltOf point' = tiltOf point /\
    read h' (positionOf point') = Some v /\
    read h (positionOf point') = None /\
    positionOf point' <> p /\
    (forall v', read (write h' p v') (positionOf point') = Some v)
  else point' = point.

(** [addTrackPoint], lines 82-87, on the track and the heap: the new
    point holds [position.clone ()]; [counter] is [pointCounter]. *)
Definition addTrackPoint (p : ref) (counter : N)
  (points : list TrackPointRef) (h : heap)
  : completion (N * list TrackPointRef * heap) :=
  let counter := N.succ counter in
  let pid := pointId counter in
  c <- clone p h ;;
  Normal (counter, points ++ [mkTrackPointRef pid (fst c) 0%R], snd c).

(** Two points held by reference, and a third vector held by the caller. *)
Definition sampleHeap : heap :=
  [Vector3.mk 0 0 0; Vector3.mk 3 0 4; Vector3.mk 9 9 9].

Definition samplePoints : list TrackPointRef :=
  [mkTrackPointRef "point-1" 0%nat 0%R; mkTrackPointRef "point-2" 1%nat 0%R].

End Objects.

(** ** Frames: the fields an operation must leave alone *)

Definition sameToggles (s s' : RollerCoasterState) : Prop :=
  isDraggingPoint s' = isDraggingPoint s /\
  isAddingPoints s' = isAddingPoints s /\
  isLooped s' = isLooped s /\
  hasChainLift s' = hasChainLift s /\
  showWoodSupports s' = showWoodSupports s /\
  isNightMode s' = isNightMode s.

(** [pid] is the id of no point of the track. *)
Definition unknownId (pid : string) (points : list TrackPoint) : Prop :=
  forall point, In point points -> id point <> pid.


(** The anchor of a loop: the first point of the track that carries [pid],
    with the points before it and after it. *)
Definition anchoredAt (pid : string) (points before : list TrackPoint)
  (anchor : TrackPoint) (after : list TrackPoint) : Prop :=
  points = before ++ anchor :: after /\
  unknownId pid before /\
  id anchor = pid.

(** ** Sample tracks *)

Definition origin : Vector3.t := Vector3.mk 0 0 0.

Definition onePoint : World := addTrackPoint origin initialWorld.

Definition twoPoints : World := addTrackPoint (Vector3.mk 3 0 4) onePoint.

(** A selection that names no point: [selectPoint] does not check. *)
Definition ghostSelected : World :=
  mkWorld 0%N (selectPoint (Some "ghost"%string) initialState).

(** [twoPoints] with its first point selected. *)
Definition firstSelected : RollerCoasterState :=
  selectPoint (Some "point-1"%string) (store twoPoints).

(** ** Reachable states *)

(** [isRiding] is true only while the mode is [ride]. *)
Definition ridingOnlyInRide (s : RollerCoasterState) : Prop :=
  isRiding s = true -> mode s = ride.

(** The two raw setters that can break [ridingOnlyInRide], called so that
    they do not: [setIsRiding (true)] only in mode [ride], [setMode] away
    from [ride] only when not riding.  Every other call is free. *)
Definition respectsRide (op : Op) (s : RollerCoasterState) : Prop :=
  match op with
  | OpSetMode m => isRiding s = true -> m = ride
  | OpSetIsRiding riding => riding = true -> mode s = ride
  | _ => True
  end.

Inductive reachableRespecting : World -> Prop :=
| respecting_initial : reachableRespecting initialWorld
| respecting_step (op : Op) (w w' : World) :
    reachableRespecting w ->
    respectsRide op (store w) ->
    step op w = Normal w' ->
    reachableRespecting w'.

(** [twoPoints] after [startRide]. *)
Definition rideStarted : World :=
  mkWorld (pointCounter twoPoints) (startRide (store twoPoints)).

(** The calls that append one point, and the calls that neither create
    nor remove points. *)
Definition isAdd (op : Op) : bool :=
  match op with
  | OpAddTrackPoint _ => true
  | _ => false
  end.

Definition countAdds (ops : list Op) : nat := length (filter isAdd ops).

Definition addsOrKeeps (op : Op) : bool :=
  match op with
  | OpCreateLoopAtPoint _ | OpRemoveTrackPoint _ | OpClearTrack => false
  | _ => true
  end.

(** Every id of the track was minted from a counter value already used. *)
Definition minted (c : N) (pid : string) : Prop :=
  exists k, (k <= c)%N /\ pid = pointId k.

Definition idsMinted (w : World) : Prop :=
  NoDup (ids (trackPoints (store w))) /\
  Forall (minted (pointCounter w)) (ids (trackPoints (store w))).

Definition sampleCalls : list Op :=
  [OpAddTrackPoint origin;
   OpSelectPoint (Some "point-1"%string);
   OpUpdateTrackPointTilt "point-1" 1%R;
   OpAddTrackPoint (Vector3.mk 3 0 4);
   OpStartRide].

(** The initial state after [setIsRiding (true)]. *)
Definition ridingInBuild : World :=
  mkWorld 0%N (setIsRiding true initialState).

(** ** The loop scenario, in the words of the specification *)




(** ** The forward direction, in the words of the specification *)




(** The two points of [twoPoints]. *)
Definition firstPoint : TrackPoint := mkTrackPoint "point-1" origin 0.

Definition secondPoint : TrackPoint :=
  mkTrackPoint "point-2" (Vector3.mk 3 0 4) 0.

(** ** More of the store: selections, modes, counters *)

(** The selection names nothing, or a point of the track. *)
Definition selectionValid (s : RollerCoasterState) : Prop :=
  match selectedPointId s with
  | None => True
  | Some sel => In sel (ids (trackPoints s))
  end.

(** [selectPoint] called with null or with the id of a point of the track;
    every other call is free. *)
Definition selectsExisting (op : Op) (s : RollerCoasterState) : Prop :=
  match op with
  | OpSelectPoint (Some sel) => In sel (ids (trackPoints s))
  | _ => True
  end.

Inductive reachableSelecting : World -> Prop :=
| selecting_initial : reachableSelecting initialWorld
| selecting_step (op : Op) (w w' : World) :
    reachableSelecting w ->
    selectsExisting op (store w) ->
    step op w = Normal w' ->
    reachableSelecting w'.

Definition isSetMode (op : Op) : bool :=
  match op with
  | OpSetMode _ => true
  | _ => false
  end.

(** How many ids a call mints: one for [addTrackPoint], eighteen for
    [createLoopAtPoint] on the id of a point, none otherwise. *)
Definition mintedBy (op : Op) (w : World) : N :=
  match op with
  | OpAddTrackPoint _ => 1
  | OpCreateLoopAtPoint pid =>
      if existsb (fun point => String.eqb (id point) pid)
           (trackPoints (store w))
      then 18
      else 0
  | _ => 0
  end%N.

(** The field a direct setter writes. *)
Inductive Field : Type :=
| FMode | FCameraTarget | FSelectedPointId | FRideProgress | FIsRiding
| FRideSpeed | FIsDraggingPoint | FIsAddingPoints | FIsLooped
| FHasChainLift | FShowWoodSupports | FIsNightMode.

Definition setterOf (op : Op) : option Field :=
  match op with
  | OpSetMode _ => Some FMode
  | OpSetCameraTarget _ => Some FCameraTarget
  | OpSelectPoint _ => Some FSelectedPointId
  | OpSetRideProgress _ => Some FRideProgress
  | OpSetIsRiding _ => Some FIsRiding
  | OpSetRideSpeed _ => Some FRideSpeed
  | OpSetIsDraggingPoint _ => Some FIsDraggingPoint
  | OpSetIsAddingPoints _ => Some FIsAddingPoints
  | OpSetIsLooped _ => Some FIsLooped
  | OpSetHasChainLift _ => Some FHasChainLift
  | OpSetShowWoodSupports _ => Some FShowWoodSupports
  | OpSetIsNightMode _ => Some FIsNightMode
  | _ => None
  end.

(** [twoPoints] after [selectPoint ("point-2")] and
    [removeTrackPoint ("point-1")]. *)
Definition secondKept : World :=
  mkWorld 2%N
    (removeTrackPoint "point-1"
       (selectPoint (Some "point-2"%string) (store twoPoints))).

(** Calls used on [twoPoints] after its first point is gone. *)
Definition laterCalls : list Op :=
  [OpAddTrackPoint origin; OpCreateLoopAtPoint "point-2";
   OpAddTrackPoint (Vector3.mk 9 9 9)].

(** ** Loop geometry *)




(** ** The panel: [client/src/components/game/GameUI.tsx]

    The component reads the store and renders controls; only the elements
    that carry a handler or show a field of the store are kept, in document
    order.  Text, styling and the static list of controls at the bottom are
    left out. *)

(** [x && ...] on a [string | null]: null and the empty string are falsy. *)
Definition truthy (o : option string) : bool :=
  match o with
  | Some str => negb (String.eqb str "")
  | None => false
  end.

Definition mode_eqb (a b : CoasterMode) : bool :=
  match a, b with
  | build, build | ride, ride | preview, preview => true
  | _, _ => false
  end.

Inductive Control : Type :=
| StartRideButton (disabled : bool)
| ClearTrackButton (disabled : bool)
| DeleteSelectedButton (selected : string)
| RideSpeedSlider (value : number)
| ProgressBar (progress : number)
| ExitRideButton.

(** Line 19. *)
Definition canRide (s : RollerCoasterState) : bool :=
  2 <=? Z.of_nat (length (trackPoints s)).

(** Lines 26-78: the build panel. *)
Definition buildPanel (s : RollerCoasterState) : list Control :=
  [StartRideButton (negb (canRide s));
   ClearTrackButton (Z.of_nat (length (trackPoints s)) =? 0)]
  ++ (if truthy (selectedPointId s)
      then match selectedPointId s with
           | Some sel => [DeleteSelectedButton sel]
           | None => []
           end
      else [])
  ++ [RideSpeedSlider (rideSpeed s)].

(** Lines 80-106: the ride panel. *)
Definition ridePanel (s : RollerCoasterState) : list Control :=
  [ProgressBar (rideProgress s); ExitRideButton].

Definition GameUI (s : RollerCoasterState) : list Control :=
  (if mode_eqb (mode s) build then buildPanel s else [])
  ++ (if mode_eqb (mode s) ride then ridePanel s else []).

(** What the user does to a control: a click, or moving the slider to a
    value (the number [parseFloat (e.target.value)] gives). *)
Inductive Gesture : Type :=
| Click (control : Control)
| Change (control : Control) (value : number).

Definition controlOf (g : Gesture) : Control :=
  match g with
  | Click control => control
  | Change control _ => control
  end.

(** The store operation a gesture calls; a disabled button calls none. *)
Definition handler (g : Gesture) : option Op :=
  match g with
  | Click (StartRideButton disabled) =>
      if disabled then None else Some OpStartRide
  | Click (ClearTrackButton disabled) =>
      if disabled then None else Some OpClearTrack
  | Click (DeleteSelectedButton sel) => Some (OpRemoveTrackPoint sel)
  | Click ExitRideButton => Some OpStopRide
  | Change (RideSpeedSlider _) value => Some (OpSetRideSpeed value)
  | _ => None
  end.

(** One gesture on a control the panel shows in the current state. *)
Inductive panelStep (w w' : World) : Prop :=
| panel_gesture (g : Gesture) (op : Op) :
    In (controlOf g) (GameUI (store w)) ->
    handler g = Some op ->
    step op w = Normal w' ->
    panelStep w w'.

Inductive panelReachable (w : World) : World -> Prop :=
| panel_here : panelReachable w w
| panel_then (w1 w2 : World) :
    panelReachable w w1 -> panelStep w1 w2 -> panelReachable w w2.

(** A ride is on exactly in mode [ride], on a track of two points or
    more, and the mode is not [preview]. *)
Definition rideConsistent (s : RollerCoasterState) : Prop :=
  mode s <> preview /\
  (isRiding s = true <-> mode s = ride) /\
  (mode s = ride -> (2 <= length (trackPoints s))%nat).
(** ** Arrays *)

Example pointId_12 : pointId 12 = "point-12"%string.
Proof. reflexivity. Qed.

Example findIndex_sample :
  findIndex (Nat.eqb 3) [1; 3; 3]%nat = 1 /\
  findIndex (Nat.eqb 3) [1; 2]%nat = -1.
Proof. split; reflexivity. Qed.

Example slice_sample :
  slice [1; 2; 3; 4]%nat 0 (Some 2) = [1; 2]%nat /\
  slice [1; 2; 3; 4]%nat 2 None = [3; 4]%nat /\
  slice [1; 2; 3; 4]%nat (-1) None = [4]%nat /\
  index [1; 2; 3; 4]%nat 4 = None.
Proof. repeat split; reflexivity. Qed.

Section Arrays.

Context {A : Type}.
Variable f : A -> bool.

Lemma findIndexFrom_none (arr : list A) (k : Z) :
  (forall a, In a arr -> f a = false) -> findIndexFrom f arr k = -1.
Proof.
  revert k; induction arr as [|a rest IH]; intros k Hall; simpl.
  - reflexivity.
  - rewrite (Hall a (or_introl eq_refl)).
    apply IH; intros b Hb; apply Hall; now right.
Qed.

Lemma findIndexFrom_first (arr : list A) (k : Z) :
  (exists a, In a arr /\ f a = true) ->
  exists before a after,
    arr = before ++ a :: after /\
    (forall b, In b before -> f b = false) /\
    f a = true /\
    findIndexFrom f arr k = k + Z.of_nat (length before).
Proof.
  revert k; induction arr as [|a rest IH]; intros k [a0 [Hin Ha0]].
  - destruct Hin.
  - simpl. destruct (f a) eqn:Hfa.
    + exists [], a, rest; simpl; repeat split; auto; try lia; intros b [].
    + assert (Hrest : exists b, In b rest /\ f b = true).
      { destruct Hin as [->|Hin]; [congruence|eauto]. }
      destruct (IH (k + 1) Hrest) as (before & b & after & -> & Hb & Hfb & Hk).
      exists (a :: before), b, after; simpl; repeat split; auto.
      * intros c [<-|Hc]; auto.
      * rewrite Hk; lia.
Qed.

Lemma findIndexFrom_range (arr : list A) (k : Z) :
  findIndexFrom f arr k = -1 \/
  k <= findIndexFrom f arr k < k + Z.of_nat (length arr).
Proof.
  revert k; induction arr as [|a rest IH]; intros k; simpl.
  - now left.
  - destruct (f a).
    + right; lia.
    + destruct (IH (k + 1)) as [->|H]; [now left|right; lia].
Qed.

Lemma index_middle (before after : list A) (a : A) :
  index (before ++ a :: after) (Z.of_nat (length before)) = Some a.
Proof.
  unfold index.
  destruct (Z.ltb_spec (Z.of_nat (length before)) 0); [lia|].
  rewrite Nat2Z.id, nth_error_app2 by lia.
  now rewrite Nat.sub_diag.
Qed.

Lemma slice_through (before after : list A) (a : A) :
  slice (before ++ a :: after) 0 (Some (Z.of_nat (length before) + 1))
  = before ++ [a].
Proof.
  unfold slice, relativeIndex.
  change (0 <? 0) with false; cbv iota.
  rewrite length_app; simpl length.
  destruct (Z.ltb_spec (Z.of_nat (length before) + 1) 0); [lia|].
  rewrite (Z.min_l 0) by lia.
  rewrite Z.min_l by lia.
  change (Z.to_nat 0) with O; rewrite skipn_O.
  replace (Z.to_nat (Z.of_nat (length before) + 1 - 0))
    with (length (before ++ [a])) by (rewrite length_app; simpl; lia).
  replace (before ++ a :: after) with ((before ++ [a]) ++ after)
    by (now rewrite <- app_assoc).
  now rewrite firstn_app, firstn_all, Nat.sub_diag, firstn_O, app_nil_r.
Qed.

Lemma slice_beyond (before after : list A) (a : A) :
  slice (before ++ a :: after) (Z.of_nat (length before) + 1) None = after.
Proof.
  unfold slice, relativeIndex.
  rewrite length_app; simpl length.
  destruct (Z.ltb_spec (Z.of_nat (length before) + 1) 0); [lia|].
  rewrite Z.min_l by lia.
  replace (Z.to_nat (Z.of_nat (length before) + 1))
    with (length (before ++ [a])) by (rewrite length_app; simpl; lia).
  replace (before ++ a :: after) with ((before ++ [a]) ++ after)
    by (now rewrite <- app_assoc).
  rewrite skipn_app, skipn_all, Nat.sub_diag; simpl.
  apply firstn_all2; lia.
Qed.

End Arrays.

Lemma Normal_inj {A : Type} (a b : A) : Normal a = Normal b -> a = b.
Proof. congruence. Qed.

Lemma with_trackPoints_same (s : RollerCoasterState) :
  with_trackPoints (trackPoints s) s = s.
Proof. now destruct s. Qed.

Lemma idTest_unknown (pid : string) (points : list TrackPoint) :
  unknownId pid points ->
  forall point, In point points -> String.eqb (id point) pid = false.
Proof.
  intros Hun point Hin. apply String.eqb_neq. now apply Hun.
Qed.

Lemma idTest_known (pid : string) (points : list TrackPoint) :
  In pid (map id points) ->
  exists point, In point points /\ String.eqb (id point) pid = true.
Proof.
  intros Hin. apply in_map_iff in Hin as (point & <- & Hin).
  exists point; split; [assumption|apply String.eqb_refl].
Qed.

(** ** The loop synthesizer, step by step *)

Lemma countTo_numLoopPoints :
  countTo numLoopPoints
  = [0; 1; 2; 3; 4; 5; 6; 7; 8; 9; 10; 11; 12; 13; 14; 15; 16].
Proof. reflexivity. Qed.

Ltac run_loop :=
  unfold loopPoints; rewrite countTo_numLoopPoints;
  cbn [fold_left loopTurn Z.eqb Pos.eqb fst snd app numLoopPoints].

Lemma loopPoints_counter (pos direction : Vector3.t) (c : N) :
  fst (loopPoints pos direction c) = (c + 18)%N.
Proof. run_loop. lia. Qed.

Lemma loopPoints_ids (pos direction : Vector3.t) (c : N) :
  ids (snd (loopPoints pos direction c))
  = map (fun k => pointId (c + k))
      [1; 2; 3; 4; 5; 6; 7; 8; 9; 10; 11; 12; 13; 14; 15; 16; 17; 18]%N.
Proof.
  run_loop. cbn [ids map id].
  repeat (f_equal; try lia).
Qed.

Lemma loopPoints_length (pos direction : Vector3.t) (c : N) :
  length (snd (loopPoints pos direction c)) = 18%nat.
Proof.
  rewrite <- (length_map id). fold (ids (snd (loopPoints pos direction c))).
  now rewrite loopPoints_ids.
Qed.


Lemma loopDirection_defined (before after : list TrackPoint)
  (anchor : TrackPoint) (pos : Vector3.t) :
  exists direction,
    loopDirection (before ++ anchor :: after) (Z.of_nat (length before)) pos
    = Normal direction.
Proof.
  unfold loopDirection.
  destruct (Z.gtb_spec (Z.of_nat (length before)) 0) as [Hpos|Hzero].
  - destruct before as [|p0 before] using rev_ind; [simpl in Hpos; lia|].
    clear IHbefore.
    rewrite length_app; simpl length.
    replace (Z.of_nat (length before + 1) - 1) with (Z.of_nat (length before))
      by lia.
    rewrite <- app_assoc; simpl app. rewrite index_middle; simpl.
    destruct Rlt_dec; eauto.
  - eauto.
Qed.

Lemma known_split (pid : string) (points : list TrackPoint) :
  In pid (ids points) ->
  exists before anchor after,
    points = before ++ anchor :: after /\
    unknownId pid before /\
    id anchor = pid /\
    findIndex (fun p => String.eqb (id p) pid) points
    = Z.of_nat (length before).
Proof.
  intros Hin. apply idTest_known in Hin.
  destruct (findIndexFrom_first (fun p => String.eqb (id p) pid) points 0 Hin)
    as (before & anchor & after & Hsplit & Hbefore & Hanchor & Hidx).
  exists before, anchor, after; repeat split; auto.
  - intros point Hpoint. apply String.eqb_neq. now apply Hbefore.
  - now apply String.eqb_eq.
Qed.

Lemma createLoopAtPoint_unknown (pid : string) (w : World) :
  unknownId pid (trackPoints (store w)) -> createLoopAtPoint pid w = Normal w.
Proof.
  intros Hun. unfold createLoopAtPoint.
  rewrite (findIndexFrom_none _ _ 0 (idTest_unknown _ _ Hun)
           : findIndex _ _ = -1).
  reflexivity.
Qed.

Lemma createLoopAtPoint_known (pid : string) (w : World)
  (before after : list TrackPoint) (anchor : TrackPoint) :
  trackPoints (store w) = before ++ anchor :: after ->
  unknownId pid before ->
  id anchor = pid ->
  exists direction,
    loopDirection (trackPoints (store w)) (Z.of_nat (length before))
      (position anchor) = Normal direction /\
    createLoopAtPoint pid w
    = Normal
        (mkWorld
           (fst (loopPoints (position anchor) direction (pointCounter w)))
           (with_trackPoints
              (before ++ anchor ::
               snd (loopPoints (position anchor) direction (pointCounter w))
               ++ after)
              (store w))).
Proof.
  intros Hsplit Hbefore Hanchor.
  assert (Hidx : findIndex (fun p => String.eqb (id p) pid)
                   (trackPoints (store w)) = Z.of_nat (length before)).
  { destruct (known_split pid (trackPoints (store w)))
      as (before' & anchor' & after' & Hsplit' & Hbefore' & Hanchor' & Hidx').
    { rewrite Hsplit. unfold ids. rewrite map_app; simpl.
      apply in_or_app; right; left; assumption. }
    rewrite Hidx'. f_equal.
    rewrite Hsplit in Hsplit'.
    destruct (Nat.lt_trichotomy (length before) (length before'))
      as [Hlt|[Heq|Hgt]]; [exfalso|now symmetry|exfalso].
    - apply (Hbefore' anchor); [|assumption].
      assert (Hnth : nth_error (before' ++ anchor' :: after') (length before)
                     = Some anchor).
      { rewrite <- Hsplit'. rewrite nth_error_app2 by lia.
        now rewrite Nat.sub_diag. }
      rewrite nth_error_app1 in Hnth by assumption.
      now apply nth_error_In in Hnth.
    - apply (Hbefore anchor'); [|assumption].
      assert (Hnth : nth_error (before ++ anchor :: after) (length before')
                     = Some anchor').
      { rewrite Hsplit'. rewrite nth_error_app2 by lia.
        now rewrite Nat.sub_diag. }
      rewrite nth_error_app1 in Hnth by assumption.
      now apply nth_error_In in Hnth. }
  destruct (loopDirection_defined before after anchor (position anchor))
    as [direction Hdir].
  exists direction. rewrite Hsplit at 1. split; [assumption|].
  unfold createLoopAtPoint. rewrite Hidx.
  destruct (Z.eqb_spec (Z.of_nat (length before)) (-1)); [lia|].
  rewrite Hsplit, index_middle; cbn [defined bind].
  rewrite Hdir; cbn [bind].
  rewrite slice_through, slice_beyond.
  destruct (loopPoints (position anchor) direction (pointCounter w))
    as [counter allPoints]; cbn [fst snd].
  now rewrite <- app_assoc.
Qed.

(** ** The ride transitions *)

(** C2. [startRide] enters the ride (mode [ride], [isRiding] true,
    [rideProgress] 0) when the track has at least two points and changes no
    other field; with fewer than two points it leaves the state as it is. *)
Theorem startRide_guarded (s : RollerCoasterState) :
  ((2 <= length (trackPoints s))%nat ->
   mode (startRide s) = ride /\
   isRiding (startRide s) = true /\
   rideProgress (startRide s) = 0%R /\
   trackPoints (startRide s) = trackPoints s /\
   selectedPointId (startRide s) = selectedPointId s /\
   rideSpeed (startRide s) = rideSpeed s /\
   sameToggles s (startRide s) /\
   cameraTarget (startRide s) = cameraTarget s) /\
  ((length (trackPoints s) < 2)%nat -> startRide s = s).
Proof.
  unfold startRide.
  destruct (Z.leb_spec 2 (Z.of_nat (length (trackPoints s)))) as [Hge|Hlt].
  - split; [intros _|lia].
    unfold sameToggles; simpl; repeat split; reflexivity.
  - split; [lia|reflexivity].
Qed.

Lemma startRide_guarded_witness :
  (mode (startRide (store twoPoints)) = ride /\
   isRiding (startRide (store twoPoints)) = true /\
   rideProgress (startRide (store twoPoints)) = 0%R /\
   trackPoints (startRide (store twoPoints)) = trackPoints (store twoPoints) /\
   selectedPointId (startRide (store twoPoints))
   = selectedPointId (store twoPoints) /\
   rideSpeed (startRide (store twoPoints)) = rideSpeed (store twoPoints) /\
   sameToggles (store twoPoints) (startRide (store twoPoints)) /\
   cameraTarget (startRide (store twoPoints)) = cameraTarget (store twoPoints))
  /\ startRide (store onePoint) = store onePoint.
Proof.
  split.
  - apply (proj1 (startRide_guarded (store twoPoints))). simpl. lia.
  - apply (proj2 (startRide_guarded (store onePoint))). simpl. lia.
Defined.

(** C9. [clearTrack] empties the track, clears the selection, resets
    [rideProgress] to 0 and [isRiding] to false; [mode], [rideSpeed], the
    toggles and [cameraTarget] stay as they were. *)
Theorem clearTrack_resets (s : RollerCoasterState) :
  trackPoints (clearTrack s) = [] /\
  selectedPointId (clearTrack s) = None /\
  rideProgress (clearTrack s) = 0%R /\
  isRiding (clearTrack s) = false /\
  mode (clearTrack s) = mode s /\
  rideSpeed (clearTrack s) = rideSpeed s /\
  sameToggles s (clearTrack s) /\
  cameraTarget (clearTrack s) = cameraTarget s.
Proof.
  unfold clearTrack, sameToggles; simpl; repeat split; reflexivity.
Qed.

(** ** Ids that match no point *)

Lemma map_unmatched {A : Type} (test : A -> bool) (g : A -> A) (l : list A) :
  (forall a, In a l -> test a = false) ->
  map (fun a => if test a then g a else a) l = l.
Proof.
  induction l as [|a rest IH]; intros Hall; simpl.
  - reflexivity.
  - rewrite (Hall a (or_introl eq_refl)).
    f_equal. apply IH. intros b Hb. apply Hall. now right.
Qed.

Lemma filter_unmatched {A : Type} (test : A -> bool) (l : list A) :
  (forall a, In a l -> test a = false) ->
  filter (fun a => negb (test a)) l = l.
Proof.
  induction l as [|a rest IH]; intros Hall; simpl.
  - reflexivity.
  - rewrite (Hall a (or_introl eq_refl)); simpl.
    f_equal. apply IH. intros b Hb. apply Hall. now right.
Qed.

Lemma updateTrackPoint_unknown (pid : string) (p : Vector3.t)
  (s : RollerCoasterState) :
  unknownId pid (trackPoints s) -> updateTrackPoint pid p s = s.
Proof.
  intros Hun. unfold updateTrackPoint.
  rewrite (map_unmatched (fun point => String.eqb (id point) pid)
             (fun point => mkTrackPoint (id point) (Vector3.clone p) (tilt point))).
  - apply with_trackPoints_same.
  - now apply idTest_unknown.
Qed.

Lemma updateTrackPointTilt_unknown (pid : string) (t : number)
  (s : RollerCoasterState) :
  unknownId pid (trackPoints s) -> updateTrackPointTilt pid t s = s.
Proof.
  intros Hun. unfold updateTrackPointTilt.
  rewrite (map_unmatched (fun point => String.eqb (id point) pid)
             (fun point => mkTrackPoint (id point) (position point) t)).
  - apply with_trackPoints_same.
  - now apply idTest_unknown.
Qed.

Lemma removeTrackPoint_unknown (pid : string) (s : RollerCoasterState) :
  unknownId pid (trackPoints s) ->
  removeTrackPoint pid s
  = with_selectedPointId
      (if nullable_eqb (selectedPointId s) pid then None else selectedPointId s)
      s.
Proof.
  intros Hun. unfold removeTrackPoint.
  rewrite (filter_unmatched (fun point => String.eqb (id point) pid)).
  - now rewrite with_trackPoints_same.
  - now apply idTest_unknown.
Qed.

Lemma nullable_eqb_false (sel : option string) (pid : string) :
  sel <> Some pid -> nullable_eqb sel pid = false.
Proof.
  destruct sel as [sel|]; simpl; [|reflexivity].
  intros Hne. apply String.eqb_neq. congruence.
Qed.

(** C3, as the code has it.  With an id that matches no point,
    [updateTrackPoint], [updateTrackPointTilt] and [createLoopAtPoint]
    return normally and leave the store and [pointCounter] as they were.
    [removeTrackPoint] returns normally too and leaves the track and every
    other field alone, but it still clears a selection that names that id;
    it is the identity when the selection does not name it. *)
Theorem unknown_id_ignored (w : World) (pid : string) (p : Vector3.t)
  (t : number) :
  unknownId pid (trackPoints (store w)) ->
  step (OpUpdateTrackPoint pid p) w = Normal w /\
  step (OpUpdateTrackPointTilt pid t) w = Normal w /\
  step (OpCreateLoopAtPoint pid) w = Normal w /\
  step (OpRemoveTrackPoint pid) w
  = Normal
      (mkWorld (pointCounter w)
         (with_selectedPointId
            (if nullable_eqb (selectedPointId (store w)) pid
             then None else selectedPointId (store w))
            (store w))) /\
  (selectedPointId (store w) <> Some pid ->
   step (OpRemoveTrackPoint pid) w = Normal w).
Proof.
  intros Hun. destruct w as [counter s]; simpl in Hun.
  unfold step, onStore; cbn [pointCounter store].
  rewrite updateTrackPoint_unknown, updateTrackPointTilt_unknown,
    removeTrackPoint_unknown by assumption.
  repeat split.
  - now apply createLoopAtPoint_unknown.
  - intros Hsel. rewrite nullable_eqb_false by assumption.
    now destruct s.
Qed.

Lemma unknown_id_ignored_witness :
  unknownId "point-7" (trackPoints (store twoPoints)) /\
  step (OpUpdateTrackPoint "point-7" origin) twoPoints = Normal twoPoints /\
  step (OpUpdateTrackPointTilt "point-7" 1%R) twoPoints = Normal twoPoints /\
  step (OpCreateLoopAtPoint "point-7") twoPoints = Normal twoPoints /\
  step (OpRemoveTrackPoint "point-7") twoPoints = Normal twoPoints.
Proof.
  assert (Hun : unknownId "point-7" (trackPoints (store twoPoints))).
  { intros point [<-|[<-|[]]]; simpl; discriminate. }
  destruct (unknown_id_ignored twoPoints "point-7" origin 1%R Hun)
    as (Hupdate & Htilt & Hloop & _ & Hremove).
  split; [exact Hun|].
  split; [exact Hupdate|].
  split; [exact Htilt|].
  split; [exact Hloop|].
  apply Hremove. simpl. discriminate.
Defined.

(** C3, as the spec words it, fails for [removeTrackPoint]: after
    [selectPoint ("ghost")] on the empty track, the id ["ghost"] matches no
    point, yet [removeTrackPoint ("ghost")] changes the state (the selection
    goes from ["ghost"] to null). *)
Lemma removeTrackPoint_unknown_id_changes_state :
  run [OpSelectPoint (Some "ghost"%string)] initialWorld = Normal ghostSelected /\
  unknownId "ghost" (trackPoints (store ghostSelected)) /\
  step (OpRemoveTrackPoint "ghost") ghostSelected <> Normal ghostSelected /\
  selectedPointId (removeTrackPoint "ghost" (store ghostSelected))
  <> selectedPointId (store ghostSelected).
Proof.
  split; [reflexivity|].
  split; [intros point []|].
  split; simpl; discriminate.
Qed.

(** ** What [createLoopAtPoint] leaves alone *)

(** C10. On the id of an existing point, [createLoopAtPoint] returns
    normally and changes [trackPoints] only: the points up to and including
    the anchor (the first point with that id) and the points after it are
    the old ones, in their old order, around the run of new points; [mode],
    [selectedPointId], [rideProgress], [isRiding], [rideSpeed], the toggles
    and [cameraTarget] are unchanged. *)
Theorem createLoopAtPoint_frame (w : World) (pid : string) :
  In pid (ids (trackPoints (store w))) ->
  exists before anchor after newPoints w',
    createLoopAtPoint pid w = Normal w' /\
    anchoredAt pid (trackPoints (store w)) before anchor after /\
    trackPoints (store w') = before ++ anchor :: newPoints ++ after /\
    length newPoints = 18%nat /\
    mode (store w') = mode (store w) /\
    selectedPointId (store w') = selectedPointId (store w) /\
    rideProgress (store w') = rideProgress (store w) /\
    isRiding (store w') = isRiding (store w) /\
    rideSpeed (store w') = rideSpeed (store w) /\
    sameToggles (store w) (store w') /\
    cameraTarget (store w') = cameraTarget (store w).
Proof.
  intros Hin.
  destruct (known_split pid _ Hin)
    as (before & anchor & after & Hsplit & Hbefore & Hanchor & _).
  destruct (createLoopAtPoint_known pid w before after anchor Hsplit Hbefore
              Hanchor) as (direction & _ & Hloop).
  exists before, anchor, after.
  exists (snd (loopPoints (position anchor) direction (pointCounter w))).
  eexists. split; [exact Hloop|].
  split; [now repeat split|].
  split; [reflexivity|].
  split; [apply loopPoints_length|].
  unfold sameToggles; simpl; repeat split; reflexivity.
Qed.

Lemma createLoopAtPoint_frame_witness :
  In "point-1"%string (ids (trackPoints (store twoPoints))) /\
  exists before anchor after newPoints w',
    createLoopAtPoint "point-1" twoPoints = Normal w' /\
    anchoredAt "point-1" (trackPoints (store twoPoints)) before anchor after /\
    trackPoints (store w') = before ++ anchor :: newPoints ++ after /\
    length newPoints = 18%nat /\
    mode (store w') = mode (store twoPoints) /\
    selectedPointId (store w') = selectedPointId (store twoPoints) /\
    rideProgress (store w') = rideProgress (store twoPoints) /\
    isRiding (store w') = isRiding (store twoPoints) /\
    rideSpeed (store w') = rideSpeed (store twoPoints) /\
    sameToggles (store twoPoints) (store w') /\
    cameraTarget (store w') = cameraTarget (store twoPoints).
Proof.
  assert (Hin : In "point-1"%string (ids (trackPoints (store twoPoints)))).
  { simpl. left. reflexivity. }
  split; [exact Hin|].
  exact (createLoopAtPoint_frame twoPoints "point-1" Hin).
Defined.

(** ** Removing a point *)

Lemma NoDup_ids_split (before after : list TrackPoint) (point : TrackPoint) :
  NoDup (ids (before ++ point :: after)) ->
  unknownId (id point) before /\ unknownId (id point) after.
Proof.
  unfold ids. rewrite map_app; simpl. intros Hnd.
  apply NoDup_remove_2 in Hnd.
  split; intros other Hother Heq; apply Hnd, in_or_app;
    [left|right]; rewrite <- Heq; now apply in_map.
Qed.

Lemma filter_the_one (pid : string) (before after : list TrackPoint)
  (point : TrackPoint) :
  unknownId pid before -> unknownId pid after -> id point = pid ->
  filter (fun q => negb (String.eqb (id q) pid)) (before ++ point :: after)
  = before ++ after.
Proof.
  intros Hbefore Hafter Hid.
  rewrite filter_app; simpl.
  rewrite (proj2 (String.eqb_eq (id point) pid) Hid); simpl.
  rewrite !(filter_unmatched (fun q => String.eqb (id q) pid))
    by now apply idTest_unknown.
  reflexivity.
Qed.

(** C7. On a track whose ids are pairwise distinct (the invariant of the
    track, which every reachable state has), [removeTrackPoint] takes out
    exactly the point with the given id when there is one, the points
    before it and after it staying as they were and in order, and leaves
    the track as it is otherwise; the selection becomes null when it named
    that id and is unchanged otherwise. *)
Theorem removeTrackPoint_effect (s : RollerCoasterState) (pid : string) :
  NoDup (ids (trackPoints s)) ->
  (In pid (ids (trackPoints s)) ->
   exists before removed after,
     trackPoints s = before ++ removed :: after /\
     id removed = pid /\
     trackPoints (removeTrackPoint pid s) = before ++ after /\
     S (length (trackPoints (removeTrackPoint pid s)))
     = length (trackPoints s)) /\
  (~ In pid (ids (trackPoints s)) ->
   trackPoints (removeTrackPoint pid s) = trackPoints s /\
   length (trackPoints (removeTrackPoint pid s)) = length (trackPoints s)) /\
  (selectedPointId s = Some pid ->
   selectedPointId (removeTrackPoint pid s) = None) /\
  (selectedPointId s <> Some pid ->
   selectedPointId (removeTrackPoint pid s) = selectedPointId s).
Proof.
  intros Hnd.
  assert (Habsent : ~ In pid (ids (trackPoints s)) ->
                    trackPoints (removeTrackPoint pid s) = trackPoints s).
  { intros Hout. simpl. apply filter_unmatched. apply idTest_unknown.
    intros point Hpoint Hid. apply Hout. rewrite <- Hid.
    unfold ids. now apply in_map. }
  split; [|split; [|split]].
  - intros Hin.
    destruct (known_split pid _ Hin)
      as (before & removed & after & Hsplit & Hbefore & Hid & _).
    exists before, removed, after.
    rewrite Hsplit in Hnd. apply NoDup_ids_split in Hnd as [_ Hafter].
    rewrite Hid in Hafter.
    assert (Hnew : trackPoints (removeTrackPoint pid s) = before ++ after).
    { simpl. rewrite Hsplit. now apply filter_the_one. }
    repeat split; try assumption.
    rewrite Hnew, Hsplit, !length_app; simpl; lia.
  - intros Hout. split; [now apply Habsent|].
    now rewrite (Habsent Hout).
  - intros Hsel. simpl. rewrite Hsel; simpl. now rewrite String.eqb_refl.
  - intros Hsel. simpl. now rewrite nullable_eqb_false.
Qed.

Lemma removeTrackPoint_effect_witness :
  NoDup (ids (trackPoints firstSelected)) /\
  (exists before removed after,
     trackPoints firstSelected = before ++ removed :: after /\
     id removed = "point-1"%string /\
     trackPoints (removeTrackPoint "point-1" firstSelected) = before ++ after /\
     S (length (trackPoints (removeTrackPoint "point-1" firstSelected)))
     = length (trackPoints firstSelected)) /\
  trackPoints (removeTrackPoint "point-9" firstSelected)
  = trackPoints firstSelected /\
  selectedPointId (removeTrackPoint "point-1" firstSelected) = None /\
  selectedPointId (removeTrackPoint "point-9" firstSelected)
  = selectedPointId firstSelected.
Proof.
  assert (Hnd : NoDup (ids (trackPoints firstSelected))).
  { simpl. constructor.
    - intros [H|[]]; discriminate H.
    - constructor; [intros []|constructor]. }
  split; [exact Hnd|].
  split.
  { apply (proj1 (removeTrackPoint_effect firstSelected "point-1" Hnd)).
    simpl. left. reflexivity. }
  split.
  { apply (proj1 (proj2 (removeTrackPoint_effect firstSelected "point-9" Hnd))).
    simpl. intros [H|[H|[]]]; discriminate H. }
  split.
  { apply (proj1 (proj2 (proj2
      (removeTrackPoint_effect firstSelected "point-1" Hnd)))).
    reflexivity. }
  apply (proj2 (proj2 (proj2
    (removeTrackPoint_effect firstSelected "point-9" Hnd)))).
  simpl. discriminate.
Defined.

(** ** No operation throws *)

Lemma createLoopAtPoint_total (pid : string) (w : World) :
  exists w', createLoopAtPoint pid w = Normal w'.
Proof.
  destruct (in_dec string_dec pid (ids (trackPoints (store w)))) as [Hin|Hout].
  - destruct (known_split pid _ Hin)
      as (before & anchor & after & Hsplit & Hbefore & Hanchor & _).
    destruct (createLoopAtPoint_known pid w before after anchor Hsplit Hbefore
                Hanchor) as (direction & _ & Hloop).
    eauto.
  - exists w. apply createLoopAtPoint_unknown.
    intros point Hpoint Hid. apply Hout. rewrite <- Hid.
    unfold ids. now apply in_map.
Qed.

Lemma step_total (op : Op) (w : World) : exists w', step op w = Normal w'.
Proof.
  destruct op; simpl; unfold onStore; eauto using createLoopAtPoint_total.
Qed.

Lemma run_total (ops : list Op) (w : World) :
  exists w', run ops w = Normal w'.
Proof.
  revert w; induction ops as [|op rest IH]; intros w; simpl.
  - eauto.
  - destruct (step_total op w) as [w1 ->]. simpl. apply IH.
Qed.

Lemma createLoopAtPoint_only_track (pid : string) (w w' : World) :
  createLoopAtPoint pid w = Normal w' ->
  store w' = with_trackPoints (trackPoints (store w')) (store w).
Proof.
  intros Hloop.
  destruct (in_dec string_dec pid (ids (trackPoints (store w)))) as [Hin|Hout].
  - destruct (known_split pid _ Hin)
      as (before & anchor & after & Hsplit & Hbefore & Hanchor & _).
    destruct (createLoopAtPoint_known pid w before after anchor Hsplit Hbefore
                Hanchor) as (direction & _ & Hknown).
    rewrite Hknown in Hloop. injection Hloop as <-. reflexivity.
  - rewrite createLoopAtPoint_unknown in Hloop.
    + injection Hloop as <-. symmetry. apply with_trackPoints_same.
    + intros point Hpoint Hid. apply Hout. rewrite <- Hid.
      unfold ids. now apply in_map.
Qed.

(** ** Riding and the mode *)

(** C4, as the code has it.  [isRiding] is true only in mode [ride] in
    every state reached from the initial one by public operations among
    which [setIsRiding (true)] is called only in mode [ride] and [setMode]
    leaves [ride] only when not riding; no other operation is restricted. *)
Theorem riding_only_in_ride (w : World) :
  reachableRespecting w -> ridingOnlyInRide (store w).
Proof.
  unfold ridingOnlyInRide.
  induction 1 as [|op w w' Hreach IH Hop Hstep].
  - discriminate.
  - destruct op; simpl in Hstep, Hop; unfold onStore in Hstep;
      try (injection Hstep as <-; simpl; intros Hr;
           solve [discriminate Hr | auto]).
    + apply createLoopAtPoint_only_track in Hstep.
      rewrite Hstep; simpl. exact IH.
    + injection Hstep as <-. unfold startRide.
      destruct (2 <=? _); simpl; auto.
Qed.

Lemma riding_only_in_ride_witness :
  reachableRespecting rideStarted /\
  isRiding (store rideStarted) = true /\
  mode (store rideStarted) = ride.
Proof.
  assert (Hreach : reachableRespecting rideStarted).
  { apply (respecting_step OpStartRide twoPoints);
      [|exact I|reflexivity].
    apply (respecting_step (OpAddTrackPoint (Vector3.mk 3 0 4)) onePoint);
      [|exact I|reflexivity].
    apply (respecting_step (OpAddTrackPoint origin) initialWorld);
      [apply respecting_initial|exact I|reflexivity]. }
  split; [exact Hreach|].
  split; [reflexivity|].
  apply (riding_only_in_ride rideStarted Hreach). reflexivity.
Defined.

(** C4, as the spec words it, fails: [setIsRiding (true)] called in the
    initial state gives a reachable state in mode [build] with [isRiding]
    true. *)
Lemma setIsRiding_breaks_riding_only_in_ride :
  run [OpSetIsRiding true] initialWorld = Normal ridingInBuild /\
  isRiding (store ridingInBuild) = true /\
  mode (store ridingInBuild) = build /\
  ~ (forall w, reachable w -> ridingOnlyInRide (store w)).
Proof.
  split; [reflexivity|].
  split; [reflexivity|].
  split; [reflexivity|].
  intros Hclaim.
  assert (Hreach : reachable ridingInBuild)
    by (exists [OpSetIsRiding true]; reflexivity).
  specialize (Hclaim ridingInBuild Hreach eq_refl).
  discriminate Hclaim.
Qed.

(** ** Fresh ids *)

Lemma numberToString_inj (a b : N) :
  numberToString a = numberToString b -> a = b.
Proof.
  unfold numberToString. intros Heq.
  assert (Hback : forall n,
    NilZero.uint_of_string (NilZero.string_of_uint (N.to_uint n))
    = Some (N.to_uint n)).
  { intros n. apply NilZero.usu. destruct n; simpl.
    - discriminate.
    - apply DecimalPos.Unsigned.to_uint_nonnil. }
  apply DecimalN.Unsigned.to_uint_inj.
  apply (f_equal NilZero.uint_of_string) in Heq.
  rewrite !Hback in Heq. congruence.
Qed.

Lemma pointId_inj (a b : N) : pointId a = pointId b -> a = b.
Proof.
  unfold pointId; simpl. intros Heq.
  apply numberToString_inj. congruence.
Qed.

Lemma minted_mono (c c' : N) (pid : string) :
  (c <= c')%N -> minted c pid -> minted c' pid.
Proof.
  intros Hle (k & Hk & ->). exists k; split; [lia|reflexivity].
Qed.

Lemma minted_not_next (c k : N) (l : list string) :
  Forall (minted c) l -> (c < k)%N -> ~ In (pointId k) l.
Proof.
  intros Hall Hlt Hin.
  rewrite Forall_forall in Hall.
  destruct (Hall _ Hin) as (j & Hj & Heq).
  apply pointId_inj in Heq. lia.
Qed.

Lemma ids_app (l l' : list TrackPoint) : ids (l ++ l') = ids l ++ ids l'.
Proof. apply map_app. Qed.

Lemma ids_cons (point : TrackPoint) (l : list TrackPoint) :
  ids (point :: l) = id point :: ids l.
Proof. reflexivity. Qed.

Lemma ids_map_same (g : TrackPoint -> TrackPoint) (l : list TrackPoint) :
  (forall point, id (g point) = id point) -> ids (map g l) = ids l.
Proof.
  intros Hg. unfold ids. rewrite map_map. apply map_ext. exact Hg.
Qed.

Lemma ids_filter (test : TrackPoint -> bool) (l : list TrackPoint) (c : N) :
  NoDup (ids l) -> Forall (minted c) (ids l) ->
  NoDup (ids (filter test l)) /\ Forall (minted c) (ids (filter test l)).
Proof.
  induction l as [|point rest IH]; simpl; intros Hnd Hall.
  - split; constructor.
  - inversion Hnd as [|? ? Hnotin Hnd']; subst.
    inversion Hall as [|? ? Hpoint Hall']; subst.
    destruct (IH Hnd' Hall') as [IHnd IHall].
    destruct (test point); simpl; [|now split].
    split; constructor; auto.
    intros Hin. apply Hnotin.
    unfold ids in *. apply in_map_iff in Hin as (q & Hq & Hin).
    apply filter_In in Hin as [Hin _].
    rewrite <- Hq. now apply in_map.
Qed.

Lemma new_ids_distinct (c : N) (offsets : list N) :
  NoDup offsets -> NoDup (map (fun k => pointId (c + k)) offsets).
Proof.
  intros Hnd. apply NoDup_map_NoDup_ForallPairs; [|assumption].
  intros a b _ _ Heq. apply pointId_inj in Heq. lia.
Qed.

Lemma idsMinted_addTrackPoint (p : Vector3.t) (w : World) :
  idsMinted w -> idsMinted (addTrackPoint p w).
Proof.
  intros [Hnd Hall]. unfold idsMinted, addTrackPoint; simpl.
  rewrite ids_app; simpl. split.
  - apply NoDup_app; [assumption|repeat constructor; intros []|].
    intros a Ha [<-|[]].
    revert Ha. apply (minted_not_next (pointCounter w)); [assumption|lia].
  - apply Forall_app; split.
    + revert Hall. apply Forall_impl. intros a. apply minted_mono. lia.
    + repeat constructor. exists (N.succ (pointCounter w)). split; [lia|reflexivity].
Qed.

Lemma idsMinted_createLoopAtPoint (pid : string) (w w' : World) :
  idsMinted w -> createLoopAtPoint pid w = Normal w' -> idsMinted w'.
Proof.
  intros [Hnd Hall] Hloop.
  destruct (in_dec string_dec pid (ids (trackPoints (store w)))) as [Hin|Hout].
  - destruct (known_split pid _ Hin)
      as (before & anchor & after & Hsplit & Hbefore & Hanchor & _).
    destruct (createLoopAtPoint_known pid w before after anchor Hsplit Hbefore
                Hanchor) as (direction & _ & Hknown).
    rewrite Hknown in Hloop. apply Normal_inj in Hloop. subst w'.
    unfold idsMinted; cbn [pointCounter store trackPoints with_trackPoints].
    rewrite loopPoints_counter.
    set (new := snd (loopPoints (position anchor) direction (pointCounter w))).
    assert (Hnew : ids new
                   = map (fun k => pointId (pointCounter w + k))
                       [1; 2; 3; 4; 5; 6; 7; 8; 9; 10; 11; 12; 13; 14; 15;
                        16; 17; 18]%N)
      by apply loopPoints_ids.
    assert (Hperm : Permutation (ids new ++ ids (trackPoints (store w)))
                      (ids (before ++ anchor :: new ++ after))).
    { rewrite Hsplit, !ids_app, !ids_cons, ids_app.
      rewrite Permutation_app_swap_app.
      apply Permutation_app_head.
      symmetry. apply Permutation_middle. }
    split.
    + apply (Permutation_NoDup Hperm).
      apply NoDup_app; [|assumption|].
      * rewrite Hnew. apply new_ids_distinct.
        repeat (constructor; [simpl; intuition discriminate|]). constructor.
      * intros a Ha. rewrite Hnew in Ha.
        apply in_map_iff in Ha as (k & <- & Hk).
        apply (minted_not_next (pointCounter w)); [assumption|].
        simpl in Hk. intuition subst; lia.
    + apply (Permutation_Forall Hperm).
      apply Forall_app; split.
      * rewrite Hnew. apply Forall_forall. intros a Ha.
        apply in_map_iff in Ha as (k & <- & Hk).
        exists (pointCounter w + k)%N. split; [|reflexivity].
        simpl in Hk. intuition subst; lia.
      * revert Hall. apply Forall_impl. intros a. apply minted_mono. lia.
  - rewrite createLoopAtPoint_unknown in Hloop.
    + injection Hloop as <-. now split.
    + intros point Hpoint Hid. apply Hout. rewrite <- Hid.
      unfold ids. now apply in_map.
Qed.

Lemma idsMinted_step (op : Op) (w w' : World) :
  idsMinted w -> step op w = Normal w' -> idsMinted w'.
Proof.
  intros Hinv Hstep.
  destruct op; simpl in Hstep; unfold onStore in Hstep;
    try (injection Hstep as <-; exact Hinv).
  - injection Hstep as <-. now apply idsMinted_addTrackPoint.
  - injection Hstep as <-. destruct Hinv as [Hnd Hall].
    unfold idsMinted; simpl. rewrite ids_map_same; [now split|].
    intros point. now destruct (String.eqb (id point) pid).
  - injection Hstep as <-. destruct Hinv as [Hnd Hall].
    unfold idsMinted; simpl. rewrite ids_map_same; [now split|].
    intros point. now destruct (String.eqb (id point) pid).
  - injection Hstep as <-. destruct Hinv as [Hnd Hall].
    unfold idsMinted; simpl. now apply ids_filter.
  - now apply (idsMinted_createLoopAtPoint pid w).
  - injection Hstep as <-. split; constructor.
  - injection Hstep as <-. unfold startRide.
    destruct (2 <=? _); exact Hinv.
Qed.

Lemma idsMinted_run (ops : list Op) (w w' : World) :
  idsMinted w -> run ops w = Normal w' -> idsMinted w'.
Proof.
  revert w; induction ops as [|op rest IH]; intros w Hinv Hrun; simpl in Hrun.
  - injection Hrun as <-. exact Hinv.
  - destruct (step op w) as [w1|e] eqn:Hstep; simpl in Hrun; [|discriminate].
    apply (IH w1); [|assumption].
    now apply (idsMinted_step op w).
Qed.

Lemma idsMinted_initial : idsMinted initialWorld.
Proof. split; constructor. Qed.

Lemma reachable_ids_distinct (w : World) :
  reachable w -> NoDup (ids (trackPoints (store w))).
Proof.
  intros [ops Hrun].
  exact (proj1 (idsMinted_run ops initialWorld w idsMinted_initial Hrun)).
Qed.

Lemma step_length (op : Op) (w w' : World) :
  addsOrKeeps op = true ->
  step op w = Normal w' ->
  length (trackPoints (store w'))
  = (length (trackPoints (store w)) + if isAdd op then 1 else 0)%nat.
Proof.
  intros Hkeeps Hstep.
  destruct op; try discriminate Hkeeps;
    simpl in Hstep; unfold onStore in Hstep; injection Hstep as <-; simpl;
    rewrite ?length_map, ?length_app; simpl; try lia.
  unfold startRide. destruct (2 <=? _); simpl; lia.
Qed.

Lemma run_length (ops : list Op) (w w' : World) :
  forallb addsOrKeeps ops = true ->
  run ops w = Normal w' ->
  length (trackPoints (store w'))
  = (length (trackPoints (store w)) + countAdds ops)%nat.
Proof.
  revert w; induction ops as [|op rest IH]; intros w Hall Hrun;
    simpl in Hrun, Hall.
  - injection Hrun as <-. unfold countAdds; simpl. lia.
  - apply andb_prop in Hall as [Hop Hrest].
    destruct (step op w) as [w1|e] eqn:Hstep; simpl in Hrun; [|discriminate].
    rewrite (IH w1 Hrest Hrun), (step_length op w w1 Hop Hstep).
    unfold countAdds; simpl. destruct (isAdd op); simpl; lia.
Qed.

(** C5. Every sequence of public operations runs from the initial state
    without exception to a state whose track has pairwise distinct ids; and
    when the sequence neither creates loops nor removes points nor clears
    the track, the track is as long as the sequence has [addTrackPoint]
    calls. *)
Theorem ids_pairwise_distinct (ops : list Op) :
  exists w,
    run ops initialWorld = Normal w /\
    NoDup (ids (trackPoints (store w))) /\
    (forallb addsOrKeeps ops = true ->
     length (trackPoints (store w)) = countAdds ops).
Proof.
  destruct (run_total ops initialWorld) as [w Hrun].
  exists w. split; [assumption|]. split.
  - apply reachable_ids_distinct. now exists ops.
  - intros Hall. now rewrite (run_length ops initialWorld w Hall Hrun).
Qed.

Lemma ids_pairwise_distinct_witness :
  forallb addsOrKeeps sampleCalls = true /\
  exists w,
    run sampleCalls initialWorld = Normal w /\
    NoDup (ids (trackPoints (store w))) /\
    length (trackPoints (store w)) = 2%nat.
Proof.
  split; [reflexivity|].
  destruct (ids_pairwise_distinct sampleCalls) as (w & Hrun & Hnd & Hlen).
  exists w. split; [exact Hrun|]. split; [exact Hnd|].
  apply Hlen. reflexivity.
Defined.

(** ** The loop on a single point at the origin *)








(** ** The forward direction of a loop *)




Lemma length_of (v : Vector3.t) (r : R) :
  (0 <= r)%R ->
  (Vector3.x v * Vector3.x v + Vector3.y v * Vector3.y v
   + Vector3.z v * Vector3.z v = r * r)%R ->
  Vector3.length v = r.
Proof.
  intros Hr Hsq. unfold Vector3.length. rewrite Hsq. now apply sqrt_square.
Qed.

Lemma normalize_of (v : Vector3.t) (r : R) :
  (0 < r)%R -> Vector3.length v = r ->
  Vector3.normalize v = Vector3.multiplyScalar v (1 / r)%R.
Proof.
  intros Hr Hlen. unfold Vector3.normalize, Vector3.divideScalar, number_or.
  rewrite Hlen. destruct (Req_dec_T r 0); [lra|reflexivity].
Qed.


(** ** Positions are copied, not shared *)

Lemma clone_value (v : Vector3.t) : Vector3.clone v = v.
Proof. now destruct v. Qed.

Lemma read_alloc_old (h : Objects.heap) (v : Vector3.t) (r : Objects.ref) :
  (r < length h)%nat -> Objects.read (h ++ [v]) r = Objects.read h r.
Proof. intros Hr. unfold Objects.read. now rewrite nth_error_app1. Qed.

Lemma read_extended (h extra : Objects.heap) (r : Objects.ref)
  (u : Vector3.t) :
  Objects.read h r = Some u -> Objects.read (h ++ extra) r = Some u.
Proof.
  unfold Objects.read. intros Hr.
  rewrite nth_error_app1; [assumption|].
  apply nth_error_Some. congruence.
Qed.

Lemma read_new (h extra : Objects.heap) (v : Vector3.t) :
  Objects.read ((h ++ [v]) ++ extra) (length h) = Some v.
Proof.
  apply read_extended. unfold Objects.read.
  rewrite nth_error_app2 by lia. now rewrite Nat.sub_diag.
Qed.

Lemma read_write_other (h : Objects.heap) (p r : Objects.ref)
  (v' : Vector3.t) :
  r <> p -> Objects.read (Objects.write h p v') r = Objects.read h r.
Proof.
  unfold Objects.read.
  revert p r; induction h as [|v0 rest IH]; intros p r Hne.
  - now destruct p.
  - destruct p as [|p'], r as [|r']; simpl; try reflexivity.
    + contradiction.
    + apply IH. congruence.
Qed.

Lemma valueOf_extended (h extra : Objects.heap) (point : Objects.TrackPointRef)
  (value : TrackPoint) :
  Objects.valueOf h point = Some value ->
  Objects.valueOf (h ++ extra) point = Some value.
Proof.
  unfold Objects.valueOf.
  destruct (Objects.read h (Objects.positionOf point)) as [u|] eqn:Hread;
    [|discriminate].
  now rewrite (read_extended h extra _ u Hread).
Qed.

Lemma valuesOf_extended (h extra : Objects.heap)
  (points : list Objects.TrackPointRef) (values : list TrackPoint) :
  Objects.valuesOf h points = Some values ->
  Objects.valuesOf (h ++ extra) points = Some values.
Proof.
  revert values; induction points as [|point rest IH]; intros values; simpl.
  - trivial.
  - destruct (Objects.valueOf h point) as [value|] eqn:Hvalue; [|discriminate].
    destruct (Objects.valuesOf h rest) as [others|]; [|discriminate].
    intros Heq.
    now rewrite (valueOf_extended h extra point value Hvalue), (IH others eq_refl).
Qed.

(** The heap only grows, by copies of [v]; the track changes pointwise. *)
Lemma mapPoints_spec (pid : string) (p : Objects.ref) (v : Vector3.t)
  (points : list Objects.TrackPointRef) :
  forall h,
    Objects.read h p = Some v ->
    exists points' extra,
      Objects.mapPoints pid p points h = Normal (points', h ++ extra) /\
      Forall2 (Objects.updated pid p v h (h ++ extra)) points points' /\
      ((forall point, In point points -> Objects.idOf point <> pid) ->
       points' = points /\ extra = []) /\
      (forall values,
         Objects.valuesOf h points = Some values ->
         Objects.valuesOf (h ++ extra) points'
         = Some (map (fun point =>
                        if String.eqb (id point) pid
                        then mkTrackPoint (id point) (Vector3.clone v)
                               (tilt point)
                        else point)
                     values)).
Proof.
  induction points as [|point rest IH]; intros h Hp.
  - exists [], []. rewrite app_nil_r. simpl. repeat split; auto.
    intros values [= <-]. reflexivity.
  - assert (Hbound : (p < length h)%nat).
    { apply nth_error_Some. unfold Objects.read in Hp. congruence. }
    simpl. destruct (String.eqb (Objects.idOf point) pid) eqn:Hid.
    + unfold Objects.clone. rewrite Hp. cbn [defined bind Objects.alloc fst snd].
      destruct (IH (h ++ [v])) as (rest' & extra & Hrest & Hall & _ & Hvalues).
      { now apply read_extended. }
      rewrite Hrest. cbn [bind fst snd].
      exists (Objects.mkTrackPointRef (Objects.idOf point) (length h)
                (Objects.tiltOf point) :: rest'), ([v] ++ extra).
      rewrite app_assoc. split; [reflexivity|]. split; [|split].
      * constructor.
        -- unfold Objects.updated. rewrite Hid. simpl.
           repeat split.
           ++ apply read_new.
           ++ unfold Objects.read. apply nth_error_None. lia.
           ++ lia.
           ++ intros v'. rewrite read_write_other by lia. apply read_new.
        -- revert Hall. apply Forall2_impl. intros q q'.
           unfold Objects.updated. destruct (String.eqb (Objects.idOf q) pid);
             [|trivial].
           intros (Hi & Ht & Hnew & Hold & Hne & Hlater).
           repeat split; try assumption.
           unfold Objects.read in *. apply nth_error_None.
           apply nth_error_None in Hold. rewrite length_app in Hold. lia.
      * intros Hun. exfalso. apply (Hun point); [now left|].
        now apply String.eqb_eq.
      * intros values. simpl.
        destruct (Objects.valueOf h point) as [value|] eqn:Hvalue;
          [|discriminate].
        destruct (Objects.valuesOf h rest) as [others|] eqn:Hothers;
          [|discriminate].
        intros [= <-].
        rewrite (Hvalues others (valuesOf_extended h [v] rest others Hothers)).
        unfold Objects.valueOf in *. simpl. rewrite read_new.
        destruct (Objects.read h (Objects.positionOf point)); [|discriminate].
        injection Hvalue as <-. simpl. rewrite Hid, clone_value. reflexivity.
    + destruct (IH h Hp) as (rest' & extra & Hrest & Hall & Hnone & Hvalues).
      rewrite Hrest. cbn [bind fst snd].
      exists (point :: rest'), extra. split; [reflexivity|]. split; [|split].
      * constructor; [|assumption].
        unfold Objects.updated. now rewrite Hid.
      * intros Hun. destruct Hnone as [-> ->]; [|now split].
        intros q Hq. apply Hun. now right.
      * intros values. simpl.
        destruct (Objects.valueOf h point) as [value|] eqn:Hvalue;
          [|discriminate].
        destruct (Objects.valuesOf h rest) as [others|] eqn:Hothers;
          [|discriminate].
        intros [= <-].
        rewrite (valueOf_extended h extra point value Hvalue),
          (Hvalues others eq_refl).
        unfold Objects.valueOf in Hvalue.
        destruct (Objects.read h (Objects.positionOf point)); [|discriminate].
        injection Hvalue as <-. simpl. now rewrite Hid.
Qed.

(** C8. When the caller's vector [p] holds [v], [updateTrackPoint (pid, p)]
    returns normally; every point with the id [pid] keeps its id and tilt
    and gets as position a new object that holds [v] (it is not [p], and
    later writes into [p] do not reach it); every other point is the same
    point, and every vector that existed holds what it held.  When no point
    has the id, the track and the heap are the same before and after.  Read
    by value, the new track is the one [updateTrackPoint pid v] computes. *)
Theorem updateTrackPoint_copies (pid : string) (p : Objects.ref)
  (v : Vector3.t) (points : list Objects.TrackPointRef) (h : Objects.heap) :
  Objects.read h p = Some v ->
  exists points' h',
    Objects.updateTrackPoint pid p points h = Normal (points', h') /\
    Forall2 (Objects.updated pid p v h h') points points' /\
    (forall r u, Objects.read h r = Some u -> Objects.read h' r = Some u) /\
    ((forall point, In point points -> Objects.idOf point <> pid) ->
     points' = points /\ h' = h) /\
    (forall s,
       Objects.valuesOf h points = Some (trackPoints s) ->
       Objects.valuesOf h' points'
       = Some (trackPoints (updateTrackPoint pid v s))).
Proof.
  intros Hp.
  destruct (mapPoints_spec pid p v points h Hp)
    as (points' & extra & Hrun & Hall & Hnone & Hvalues).
  exists points', (h ++ extra).
  split; [exact Hrun|]. split; [exact Hall|]. split; [|split].
  - intros r u. apply read_extended.
  - intros Hun. destruct (Hnone Hun) as [-> ->].
    now rewrite app_nil_r.
  - intros s Hs. exact (Hvalues _ Hs).
Qed.

Lemma updateTrackPoint_copies_witness :
  Objects.read Objects.sampleHeap 2%nat = Some (Vector3.mk 9 9 9) /\
  exists points' h',
    Objects.updateTrackPoint "point-2" 2%nat Objects.samplePoints
      Objects.sampleHeap = Normal (points', h') /\
    Forall2
      (Objects.updated "point-2" 2%nat (Vector3.mk 9 9 9) Objects.sampleHeap h')
      Objects.samplePoints points' /\
    (forall r u,
       Objects.read Objects.sampleHeap r = Some u ->
       Objects.read h' r = Some u).
Proof.
  assert (Hp : Objects.read Objects.sampleHeap 2%nat
               = Some (Vector3.mk 9 9 9)) by reflexivity.
  split; [exact Hp|].
  destruct (updateTrackPoint_copies "point-2" 2%nat (Vector3.mk 9 9 9)
              Objects.samplePoints Objects.sampleHeap Hp)
    as (points' & h' & Hrun & Hall & Hold & _).
  exists points', h'.
  split; [exact Hrun|]. split; [exact Hall|exact Hold].
Defined.

(** The run on the sample: the second point gets the new object 3, a copy
    of the caller's vector 2; the first point and the three old vectors are
    as they were. *)
Example updateTrackPoint_sample :
  Objects.updateTrackPoint "point-2" 2%nat Objects.samplePoints
    Objects.sampleHeap
  = Normal
      ([Objects.mkTrackPointRef "point-1" 0%nat 0%R;
        Objects.mkTrackPointRef "point-2" 3%nat 0%R],
       [Vector3.mk 0 0 0; Vector3.mk 3 0 4; Vector3.mk 9 9 9;
        Vector3.mk 9 9 9]).
Proof. reflexivity. Qed.

(** ** The direction is a horizontal unit vector *)

Lemma length_nonneg (v : Vector3.t) : (0 <= Vector3.length v)%R.
Proof. apply sqrt_pos. Qed.

Lemma normalize_unit (v : Vector3.t) :
  Vector3.length v <> 0%R -> Vector3.length (Vector3.normalize v) = 1%R.
Proof.
  intros Hnz.
  pose proof (length_nonneg v) as Hpos.
  assert (Hlen : (0 < Vector3.length v)%R) by lra.
  rewrite (normalize_of v (Vector3.length v) Hlen eq_refl).
  apply length_of; [lra|].
  assert (Hsq : (Vector3.length v * Vector3.length v
                 = Vector3.x v * Vector3.x v + Vector3.y v * Vector3.y v
                   + Vector3.z v * Vector3.z v)%R).
  { unfold Vector3.length. apply sqrt_sqrt.
    pose proof (Rle_0_sqr (Vector3.x v)) as Hx.
    pose proof (Rle_0_sqr (Vector3.y v)) as Hy.
    pose proof (Rle_0_sqr (Vector3.z v)) as Hz.
    unfold Rsqr in *. lra. }
  simpl. set (l := Vector3.length v) in *.
  replace (Vector3.x v * (1 / l) * (Vector3.x v * (1 / l))
           + Vector3.y v * (1 / l) * (Vector3.y v * (1 / l))
           + Vector3.z v * (1 / l) * (Vector3.z v * (1 / l)))%R
    with ((Vector3.x v * Vector3.x v + Vector3.y v * Vector3.y v
           + Vector3.z v * Vector3.z v) / (l * l))%R
    by (field; lra).
  rewrite <- Hsq. field. lra.
Qed.

Lemma loopDirection_horizontal_unit (points : list TrackPoint) (i : Z)
  (pos direction : Vector3.t) :
  loopDirection points i pos = Normal direction ->
  Vector3.y direction = 0%R /\ Vector3.length direction = 1%R.
Proof.
  assert (Hdefault : Vector3.length (Vector3.mk 1 0 0) = 1%R)
    by (apply length_of; simpl; lra).
  unfold loopDirection.
  destruct (i >? 0); [|intros [= <-]; now split].
  destruct (index points (i - 1)) as [prevPoint|]; [|discriminate].
  cbn [defined bind].
  destruct Rlt_dec as [Hshort|Hlong]; intros [= <-].
  - now split.
  - split.
    + simpl. ring.
    + apply normalize_unit. lra.
Qed.

(** * Beyond the claims *)

(** ** Leaving a ride *)

(** X1. [stopRide] gives mode [build], [isRiding] false and [rideProgress]
    0 and changes nothing else; it cancels a [startRide] whatever the
    track ([stopRide] after [startRide] is [stopRide]), it is idempotent,
    and from a state at rest in build mode a [startRide] followed by
    [stopRide] gives the state back. *)
Theorem stopRide_after_startRide (s : RollerCoasterState) :
  stopRide (startRide s) = stopRide s /\
  stopRide (stopRide s) = stopRide s /\
  (mode s = build -> isRiding s = false -> rideProgress s = 0%R ->
   stopRide (startRide s) = s) /\
  mode (stopRide s) = build /\
  isRiding (stopRide s) = false /\
  rideProgress (stopRide s) = 0%R /\
  trackPoints (stopRide s) = trackPoints s /\
  selectedPointId (stopRide s) = selectedPointId s /\
  rideSpeed (stopRide s) = rideSpeed s /\
  sameToggles s (stopRide s) /\
  cameraTarget (stopRide s) = cameraTarget s.
Proof.
  assert (Hcancel : stopRide (startRide s) = stopRide s).
  { unfold startRide. now destruct (2 <=? _). }
  split; [exact Hcancel|]. split; [reflexivity|]. split.
  - intros Hmode Hriding Hprogress. rewrite Hcancel.
    destruct s; simpl in *; subst; reflexivity.
  - unfold sameToggles; simpl; repeat split; reflexivity.
Qed.

Lemma stopRide_after_startRide_witness :
  mode (store twoPoints) = build /\
  isRiding (store twoPoints) = false /\
  rideProgress (store twoPoints) = 0%R /\
  mode (startRide (store twoPoints)) = ride /\
  stopRide (startRide (store twoPoints)) = store twoPoints.
Proof.
  split; [reflexivity|]. split; [reflexivity|]. split; [reflexivity|].
  split; [reflexivity|].
  apply (proj1 (proj2 (proj2 (stopRide_after_startRide (store twoPoints)))));
    reflexivity.
Defined.

(** ** Editing points *)

Lemma map_pointwise {A : Type} (g : A -> A) (R : A -> A -> Prop) (l : list A) :
  (forall a, R a (g a)) -> Forall2 R l (map g l).
Proof.
  intros Hg. induction l as [|a rest IH]; simpl; constructor; auto.
Qed.

(** X2. [updateTrackPointTilt (pid, t)] gives tilt [t] to every point with
    the id [pid], keeping its id and position; every other point is the
    same point; the ids and the positions of the track, in order, and all
    other fields of the state are unchanged. *)
Theorem updateTrackPointTilt_effect (s : RollerCoasterState) (pid : string)
  (t : number) :
  Forall2
    (fun point point' =>
       if String.eqb (id point) pid
       then point' = mkTrackPoint (id point) (position point) t
       else point' = point)
    (trackPoints s) (trackPoints (updateTrackPointTilt pid t s)) /\
  ids (trackPoints (updateTrackPointTilt pid t s)) = ids (trackPoints s) /\
  map position (trackPoints (updateTrackPointTilt pid t s))
  = map position (trackPoints s) /\
  updateTrackPointTilt pid t s
  = with_trackPoints (trackPoints (updateTrackPointTilt pid t s)) s.
Proof.
  split; [|split; [|split]].
  - simpl. apply map_pointwise. intros point.
    now destruct (String.eqb (id point) pid).
  - simpl. apply ids_map_same. intros point.
    now destruct (String.eqb (id point) pid).
  - simpl. rewrite map_map. apply map_ext. intros point.
    now destruct (String.eqb (id point) pid).
  - reflexivity.
Qed.

(** X3. Position and tilt updates do not interfere: an [updateTrackPoint]
    and an [updateTrackPointTilt] commute, on the same id or on different
    ids; two position updates on different ids commute; and of two updates
    of the same kind on the same id the later one wins. *)
Theorem updates_compose (s : RollerCoasterState) (pid pid' : string)
  (p p' : Vector3.t) (t t' : number) :
  updateTrackPoint pid p (updateTrackPointTilt pid' t s)
  = updateTrackPointTilt pid' t (updateTrackPoint pid p s) /\
  (pid <> pid' ->
   updateTrackPoint pid p (updateTrackPoint pid' p' s)
   = updateTrackPoint pid' p' (updateTrackPoint pid p s)) /\
  updateTrackPoint pid p' (updateTrackPoint pid p s)
  = updateTrackPoint pid p' s /\
  updateTrackPointTilt pid t' (updateTrackPointTilt pid t s)
  = updateTrackPointTilt pid t' s.
Proof.
  unfold updateTrackPoint, updateTrackPointTilt.
  cbn [trackPoints with_trackPoints].
  repeat split; try intros Hne;
    change (with_trackPoints ?l (with_trackPoints _ s))
      with (with_trackPoints l s);
    apply (f_equal (fun l => with_trackPoints l s));
    rewrite !map_map; apply map_ext; intros point;
    destruct (String.eqb_spec (id point) pid);
    destruct (String.eqb_spec (id point) pid'); simpl;
    repeat match goal with
           | |- context [String.eqb ?a ?b] =>
               destruct (String.eqb_spec a b)
           end;
    congruence.
Qed.

Lemma updates_compose_witness :
  "point-1"%string <> "point-2"%string /\
  updateTrackPoint "point-1" origin
    (updateTrackPoint "point-2" (Vector3.mk 9 9 9) (store twoPoints))
  = updateTrackPoint "point-2" (Vector3.mk 9 9 9)
      (updateTrackPoint "point-1" origin (store twoPoints)).
Proof.
  assert (Hne : "point-1"%string <> "point-2"%string) by discriminate.
  split; [exact Hne|].
  exact (proj1 (proj2 (updates_compose (store twoPoints) "point-1" "point-2"
                         origin (Vector3.mk 9 9 9) 0%R 0%R)) Hne).
Defined.

Lemma removeTrackPoint_no_such_id (s : RollerCoasterState) (pid : string) :
  ~ In pid (ids (trackPoints (removeTrackPoint pid s))).
Proof.
  simpl. unfold ids. intros Hin.
  apply in_map_iff in Hin as (point & Hid & Hin).
  apply filter_In in Hin as [_ Htest].
  rewrite (proj2 (String.eqb_eq _ _) Hid) in Htest. discriminate.
Qed.

(** X4. After [removeTrackPoint (pid)] no point of the track carries
    [pid], in any state, also one with several such points; the points
    with other ids are exactly the ones that were there; the track never
    grows; and removing the same id again changes nothing. *)
Theorem removeTrackPoint_gone (s : RollerCoasterState) (pid : string) :
  ~ In pid (ids (trackPoints (removeTrackPoint pid s))) /\
  (forall point,
     id point <> pid ->
     (In point (trackPoints (removeTrackPoint pid s))
      <-> In point (trackPoints s))) /\
  (length (trackPoints (removeTrackPoint pid s))
   <= length (trackPoints s))%nat /\
  removeTrackPoint pid (removeTrackPoint pid s) = removeTrackPoint pid s.
Proof.
  pose proof (removeTrackPoint_no_such_id s pid) as Hgone.
  split; [exact Hgone|]. split; [|split].
  - intros point Hid. simpl. rewrite filter_In.
    rewrite (proj2 (String.eqb_neq _ _) Hid). simpl. intuition.
  - simpl. apply filter_length_le.
  - assert (Hun : unknownId pid (trackPoints (removeTrackPoint pid s))).
    { intros point Hpoint Hid. apply Hgone.
      unfold ids. apply in_map_iff. now exists point. }
    rewrite (removeTrackPoint_unknown pid _ Hun).
    unfold removeTrackPoint.
    destruct (nullable_eqb (selectedPointId s) pid) eqn:Hsel;
      simpl; rewrite ?Hsel; reflexivity.
Qed.

Lemma removeTrackPoint_gone_witness :
  id secondPoint <> "point-1"%string /\
  In secondPoint (trackPoints firstSelected) /\
  In secondPoint (trackPoints (removeTrackPoint "point-1" firstSelected)) /\
  ~ In "point-1"%string
      (ids (trackPoints (removeTrackPoint "point-1" firstSelected))).
Proof.
  assert (Hne : id secondPoint <> "point-1"%string) by discriminate.
  assert (Hin : In secondPoint (trackPoints firstSelected))
    by (right; left; reflexivity).
  destruct (removeTrackPoint_gone firstSelected "point-1")
    as (Hgone & Hkept & _).
  split; [exact Hne|]. split; [exact Hin|].
  split; [exact (proj2 (Hkept secondPoint Hne) Hin)|exact Hgone].
Defined.

(** ** Ids over time *)

Lemma createLoopAtPoint_cases (pid : string) (w w' : World) :
  createLoopAtPoint pid w = Normal w' ->
  (unknownId pid (trackPoints (store w)) /\ w' = w) \/
  (exists before anchor after direction,
     anchoredAt pid (trackPoints (store w)) before anchor after /\
     Vector3.y direction = 0%R /\
     Vector3.length direction = 1%R /\
     w' = mkWorld
            (fst (loopPoints (position anchor) direction (pointCounter w)))
            (with_trackPoints
               (before ++ anchor ::
                snd (loopPoints (position anchor) direction (pointCounter w))
                ++ after)
               (store w))).
Proof.
  intros Hloop.
  destruct (in_dec string_dec pid (ids (trackPoints (store w)))) as [Hin|Hout].
  - right.
    destruct (known_split pid _ Hin)
      as (before & anchor & after & Hsplit & Hbefore & Hanchor & _).
    destruct (createLoopAtPoint_known pid w before after anchor Hsplit Hbefore
                Hanchor) as (direction & Hdir & Hknown).
    destruct (loopDirection_horizontal_unit _ _ _ _ Hdir) as [Hy Hunit].
    exists before, anchor, after, direction.
    rewrite Hknown in Hloop. apply Normal_inj in Hloop.
    repeat split; auto.
  - left.
    assert (Hun : unknownId pid (trackPoints (store w))).
    { intros point Hpoint Hid. apply Hout. rewrite <- Hid.
      unfold ids. now apply in_map. }
    rewrite (createLoopAtPoint_unknown pid w Hun) in Hloop.
    apply Normal_inj in Hloop. now split.
Qed.

Lemma ids_filter_subset (test : TrackPoint -> bool) (l : list TrackPoint)
  (pid : string) :
  In pid (ids (filter test l)) -> In pid (ids l).
Proof.
  unfold ids. intros Hin. apply in_map_iff in Hin as (point & Hid & Hin).
  apply filter_In in Hin as [Hin _]. apply in_map_iff. now exists point.
Qed.

Lemma step_ids (op : Op) (w w' : World) :
  step op w = Normal w' ->
  (pointCounter w <= pointCounter w')%N /\
  forall pid,
    In pid (ids (trackPoints (store w'))) ->
    In pid (ids (trackPoints (store w))) \/
    exists k, (pointCounter w < k <= pointCounter w')%N /\ pid = pointId k.
Proof.
  intros Hstep.
  destruct op; simpl in Hstep; unfold onStore in Hstep;
    try (apply Normal_inj in Hstep; subst w'; simpl;
         split; [lia|intros pid' Hin; now left]).
  - apply Normal_inj in Hstep; subst w'. simpl. split; [lia|].
    intros pid' Hin. rewrite ids_app in Hin.
    apply in_app_or in Hin as [Hin|[<-|[]]]; [now left|right].
    exists (N.succ (pointCounter w)). split; [lia|reflexivity].
  - apply Normal_inj in Hstep; subst w'. simpl. split; [lia|].
    intros pid' Hin. left. rewrite ids_map_same in Hin; [assumption|].
    intros point. now destruct (String.eqb (id point) pid).
  - apply Normal_inj in Hstep; subst w'. simpl. split; [lia|].
    intros pid' Hin. left. rewrite ids_map_same in Hin; [assumption|].
    intros point. now destruct (String.eqb (id point) pid).
  - apply Normal_inj in Hstep; subst w'. simpl. split; [lia|].
    intros pid' Hin. left. now apply ids_filter_subset in Hin.
  - apply createLoopAtPoint_cases in Hstep
      as [[_ ->]|(before & anchor & after & direction & (Hsplit & _ & _)
                  & _ & _ & ->)].
    + split; [lia|]. intros pid' Hin. now left.
    + cbn [pointCounter store trackPoints with_trackPoints].
      rewrite loopPoints_counter. split; [lia|].
      intros pid' Hin. rewrite Hsplit.
      rewrite ids_app, ids_cons, ids_app, loopPoints_ids in Hin.
      rewrite ids_app, ids_cons.
      apply in_app_or in Hin as [Hin|[Hin|Hin]].
      * left. apply in_or_app. now left.
      * left. apply in_or_app. right. now left.
      * apply in_app_or in Hin as [Hin|Hin].
        -- right. apply in_map_iff in Hin as (k & <- & Hk).
           exists (pointCounter w + k)%N. split; [|reflexivity].
           simpl in Hk. intuition subst; lia.
        -- left. apply in_or_app. right. now right.
  - apply Normal_inj in Hstep; subst w'. simpl. split; [lia|].
    intros pid' Hin. left. unfold startRide in Hin.
    now destruct (2 <=? _).
Qed.

Lemma absent_id_stays_absent (ops : list Op) (w w' : World) (pid : string) :
  minted (pointCounter w) pid ->
  ~ In pid (ids (trackPoints (store w))) ->
  run ops w = Normal w' ->
  ~ In pid (ids (trackPoints (store w'))).
Proof.
  revert w; induction ops as [|op rest IH]; intros w Hminted Hout Hrun;
    simpl in Hrun.
  - apply Normal_inj in Hrun. now subst w'.
  - destruct (step op w) as [w1|e] eqn:Hstep; simpl in Hrun; [|discriminate].
    destruct (step_ids op w w1 Hstep) as [Hle Hids].
    apply (IH w1); [|  |assumption].
    + revert Hminted. apply minted_mono. exact Hle.
    + intros Hin. destruct (Hids pid Hin) as [Hold|(k & Hk & Heq)].
      * now apply Hout.
      * destruct Hminted as (j & Hj & Hpid). rewrite Hpid in Heq.
        apply pointId_inj in Heq. lia.
Qed.

Lemma reachable_idsMinted (w : World) : reachable w -> idsMinted w.
Proof.
  intros [ops Hrun].
  exact (idsMinted_run ops initialWorld w idsMinted_initial Hrun).
Qed.

(** X5. An id is never used twice.  In a reachable state, once the point
    with an id is taken out, by [removeTrackPoint] or by [clearTrack], no
    sequence of operations brings a point with that id back: new points
    only get ids from counter values not used before, and [pointCounter]
    is never reset. *)
Theorem removed_id_never_returns (w : World) (pid : string) :
  reachable w ->
  In pid (ids (trackPoints (store w))) ->
  forall (ops : list Op) (w' : World),
    (run (OpRemoveTrackPoint pid :: ops) w = Normal w' ->
     ~ In pid (ids (trackPoints (store w')))) /\
    (run (OpClearTrack :: ops) w = Normal w' ->
     ~ In pid (ids (trackPoints (store w')))).
Proof.
  intros Hreach Hin ops w'.
  destruct (reachable_idsMinted w Hreach) as [_ Hall].
  rewrite Forall_forall in Hall. specialize (Hall pid Hin).
  split; intros Hrun; simpl in Hrun; unfold onStore in Hrun;
    cbn [bind] in Hrun;
    (eapply absent_id_stays_absent; [| |exact Hrun]); try exact Hall.
  - apply removeTrackPoint_no_such_id.
  - intros [].
Qed.

Lemma reachable_twoPoints : reachable twoPoints.
Proof.
  exists [OpAddTrackPoint origin; OpAddTrackPoint (Vector3.mk 3 0 4)].
  reflexivity.
Qed.

Lemma removed_id_never_returns_witness :
  reachable twoPoints /\
  In "point-1"%string (ids (trackPoints (store twoPoints))) /\
  exists w',
    run (OpRemoveTrackPoint "point-1" :: laterCalls) twoPoints = Normal w' /\
    ~ In "point-1"%string (ids (trackPoints (store w'))).
Proof.
  assert (Hin : In "point-1"%string (ids (trackPoints (store twoPoints))))
    by (left; reflexivity).
  split; [exact reachable_twoPoints|]. split; [exact Hin|].
  destruct (run_total (OpRemoveTrackPoint "point-1" :: laterCalls) twoPoints)
    as [w' Hrun].
  exists w'. split; [exact Hrun|].
  exact (proj1 (removed_id_never_returns twoPoints "point-1"
                  reachable_twoPoints Hin laterCalls w') Hrun).
Defined.

Lemma existsb_ids (pid : string) (points : list TrackPoint) :
  existsb (fun point => String.eqb (id point) pid) points = true
  <-> In pid (ids points).
Proof.
  rewrite existsb_exists. unfold ids. rewrite in_map_iff.
  split; intros (point & H1 & H2); exists point.
  - apply String.eqb_eq in H2. now split.
  - split; [assumption|now apply String.eqb_eq].
Qed.

Lemma step_mints (op : Op) (w w' : World) :
  step op w = Normal w' ->
  pointCounter w' = (pointCounter w + mintedBy op w)%N /\
  (N.of_nat (length (trackPoints (store w')))
   <= N.of_nat (length (trackPoints (store w))) + mintedBy op w)%N.
Proof.
  intros Hstep.
  destruct op; simpl in Hstep; unfold onStore in Hstep;
    try (apply Normal_inj in Hstep; subst w'; simpl;
         rewrite ?length_map; split; lia).
  - apply Normal_inj in Hstep; subst w'. simpl.
    rewrite length_app; simpl. split; lia.
  - apply Normal_inj in Hstep; subst w'. simpl. split; [lia|].
    pose proof (filter_length_le
                  (fun point => negb (String.eqb (id point) pid))
                  (trackPoints (store w))). lia.
  - unfold mintedBy.
    apply createLoopAtPoint_cases in Hstep
      as [[Hun ->]|(before & anchor & after & direction
                    & (Hsplit & Hbefore & Hanchor) & _ & _ & ->)].
    + destruct (existsb _ _) eqn:Hex; [|split; lia].
      apply existsb_ids in Hex. unfold ids in Hex.
      apply in_map_iff in Hex as (point & Hid & Hin).
      now destruct (Hun point Hin).
    + assert (Hex : existsb (fun point => String.eqb (id point) pid)
                      (trackPoints (store w)) = true).
      { apply existsb_ids. rewrite Hsplit, ids_app, ids_cons.
        apply in_or_app. right. now left. }
      rewrite Hex. cbn [pointCounter store trackPoints with_trackPoints].
      rewrite loopPoints_counter. split; [reflexivity|].
      rewrite Hsplit, !length_app. cbn [length].
      rewrite length_app, loopPoints_length. lia.
  - apply Normal_inj in Hstep; subst w'. simpl. split; [lia|].
    unfold startRide. destruct (2 <=? _); simpl; lia.
Qed.

(** X6. [pointCounter] does the accounting of the points ever created: a
    call adds to it exactly the number of ids it mints (1 for
    [addTrackPoint], 18 for [createLoopAtPoint] on the id of a point, 0
    for every other call, also a [clearTrack]), the track grows by no more
    than that, and so in every reachable state the track has at most
    [pointCounter] points. *)
Theorem pointCounter_accounting :
  (forall op w w',
     step op w = Normal w' ->
     pointCounter w' = (pointCounter w + mintedBy op w)%N /\
     (N.of_nat (length (trackPoints (store w')))
      <= N.of_nat (length (trackPoints (store w))) + mintedBy op w)%N) /\
  (forall w,
     reachable w ->
     (N.of_nat (length (trackPoints (store w))) <= pointCounter w)%N).
Proof.
  split; [exact step_mints|].
  intros w [ops Hrun].
  assert (Hgen : forall ops w0 w1,
            run ops w0 = Normal w1 ->
            (N.of_nat (length (trackPoints (store w0))) <= pointCounter w0)%N ->
            (N.of_nat (length (trackPoints (store w1))) <= pointCounter w1)%N).
  { clear. induction ops as [|op rest IH]; intros w0 w1 Hrun Hle;
      simpl in Hrun.
    - apply Normal_inj in Hrun. now subst.
    - destruct (step op w0) as [w2|e] eqn:Hstep; simpl in Hrun;
        [|discriminate].
      apply (IH w2 w1 Hrun).
      destruct (step_mints op w0 w2 Hstep) as [-> Hlen]. lia. }
  apply (Hgen ops initialWorld w Hrun). simpl. lia.
Qed.

Lemma pointCounter_accounting_witness :
  reachable twoPoints /\
  (N.of_nat (length (trackPoints (store twoPoints)))
   <= pointCounter twoPoints)%N /\
  exists w',
    step (OpCreateLoopAtPoint "point-2") twoPoints = Normal w' /\
    pointCounter w' = 20%N.
Proof.
  split; [exact reachable_twoPoints|].
  split; [exact (proj2 pointCounter_accounting twoPoints reachable_twoPoints)|].
  destruct (step_total (OpCreateLoopAtPoint "point-2") twoPoints) as [w' Hstep].
  exists w'. split; [exact Hstep|].
  exact (proj1 (proj1 pointCounter_accounting _ _ _ Hstep)).
Defined.

(** ** The selection *)

Lemma selectionValid_step (op : Op) (w w' : World) :
  selectionValid (store w) ->
  selectsExisting op (store w) ->
  step op w = Normal w' ->
  selectionValid (store w').
Proof.
  unfold selectionValid. intros Hvalid Hop Hstep.
  destruct op; simpl in Hstep, Hop; unfold onStore in Hstep;
    try (apply Normal_inj in Hstep; subst w'; simpl; exact Hvalid).
  - apply Normal_inj in Hstep; subst w'. simpl.
    destruct (selectedPointId (store w)); [|exact I].
    rewrite ids_app. apply in_or_app. now left.
  - apply Normal_inj in Hstep; subst w'. simpl.
    rewrite ids_map_same; [exact Hvalid|].
    intros point. now destruct (String.eqb (id point) pid).
  - apply Normal_inj in Hstep; subst w'. simpl.
    rewrite ids_map_same; [exact Hvalid|].
    intros point. now destruct (String.eqb (id point) pid).
  - apply Normal_inj in Hstep; subst w'. simpl.
    destruct (selectedPointId (store w)) as [sel|]; simpl; [|exact I].
    destruct (String.eqb_spec sel pid) as [->|Hne]; [exact I|].
    unfold ids in *. apply in_map_iff in Hvalid as (point & Hid & Hin).
    apply in_map_iff. exists point. split; [assumption|].
    apply filter_In. split; [assumption|].
    apply negb_true_iff, String.eqb_neq. congruence.
  - apply createLoopAtPoint_cases in Hstep
      as [[_ ->]|(before & anchor & after & direction
                  & (Hsplit & _ & _) & _ & _ & ->)]; [exact Hvalid|].
    cbn [store selectedPointId with_trackPoints trackPoints].
    destruct (selectedPointId (store w)) as [sel|]; [|exact I].
    rewrite Hsplit, ids_app, ids_cons in Hvalid.
    rewrite ids_app, ids_cons, ids_app.
    apply in_app_or in Hvalid as [Hin|[Hin|Hin]].
    + apply in_or_app. now left.
    + apply in_or_app. right. now left.
    + apply in_or_app. right. right. apply in_or_app. now right.
  - apply Normal_inj in Hstep; subst w'. simpl.
    destruct sel; [exact Hop|exact I].
  - apply Normal_inj in Hstep; subst w'. exact I.
  - apply Normal_inj in Hstep; subst w'.
    unfold startRide. now destruct (2 <=? _).
Qed.

(** X7. The selection never dangles when [selectPoint] is given null or
    the id of a point of the track: in every state reached that way,
    [selectedPointId] is null or the id of a point of the track.  No other
    operation has to be restricted; in particular [removeTrackPoint] and
    [clearTrack] clear a selection they would orphan. *)
Theorem selection_never_dangles (w : World) :
  reachableSelecting w -> selectionValid (store w).
Proof.
  induction 1 as [|op w w' Hreach IH Hop Hstep].
  - exact I.
  - exact (selectionValid_step op w w' IH Hop Hstep).
Qed.

Lemma selection_never_dangles_witness :
  reachableSelecting secondKept /\
  selectedPointId (store secondKept) = Some "point-2"%string /\
  selectionValid (store secondKept).
Proof.
  assert (Hreach : reachableSelecting secondKept).
  { apply (selecting_step (OpRemoveTrackPoint "point-1")
             (mkWorld 2%N (selectPoint (Some "point-2"%string)
                             (store twoPoints))));
      [|exact I|reflexivity].
    apply (selecting_step (OpSelectPoint (Some "point-2"%string)) twoPoints);
      [|simpl; right; left; reflexivity|reflexivity].
    apply (selecting_step (OpAddTrackPoint (Vector3.mk 3 0 4)) onePoint);
      [|exact I|reflexivity].
    apply (selecting_step (OpAddTrackPoint origin) initialWorld);
      [apply selecting_initial|exact I|reflexivity]. }
  split; [exact Hreach|]. split; [reflexivity|].
  exact (selection_never_dangles secondKept Hreach).
Defined.

(** ** Modes *)

Lemma step_keeps_mode_out_of_preview (op : Op) (w w' : World) :
  isSetMode op = false ->
  mode (store w) <> preview ->
  step op w = Normal w' ->
  mode (store w') <> preview.
Proof.
  intros Hop Hmode Hstep.
  destruct op; try discriminate Hop; simpl in Hstep; unfold onStore in Hstep;
    try (apply Normal_inj in Hstep; subst w'; simpl;
         solve [exact Hmode | discriminate]).
  - apply createLoopAtPoint_only_track in Hstep. now rewrite Hstep.
  - apply Normal_inj in Hstep; subst w'. unfold startRide.
    destruct (2 <=? _); simpl; [discriminate|exact Hmode].
Qed.

(** X8. Mode [preview] is entered by [setMode] only: a sequence of public
    operations without [setMode], run from the initial state, ends in mode
    [build] or [ride]. *)
Theorem preview_needs_setMode (ops : list Op) (w : World) :
  forallb (fun op => negb (isSetMode op)) ops = true ->
  run ops initialWorld = Normal w ->
  mode (store w) = build \/ mode (store w) = ride.
Proof.
  intros Hall Hrun.
  assert (Hgen : forall ops w0 w1,
            forallb (fun op => negb (isSetMode op)) ops = true ->
            mode (store w0) <> preview ->
            run ops w0 = Normal w1 ->
            mode (store w1) <> preview).
  { clear. induction ops as [|op rest IH]; intros w0 w1 Hall Hmode Hrun;
      simpl in Hrun, Hall.
    - apply Normal_inj in Hrun. now subst.
    - apply andb_prop in Hall as [Hop Hrest].
      apply negb_true_iff in Hop.
      destruct (step op w0) as [w2|e] eqn:Hstep; simpl in Hrun;
        [|discriminate].
      apply (IH w2 w1 Hrest); [|assumption].
      exact (step_keeps_mode_out_of_preview op w0 w2 Hop Hmode Hstep). }
  assert (Hout : mode (store w) <> preview).
  { apply (Hgen ops initialWorld w Hall); [discriminate|assumption]. }
  destruct (mode (store w)); [now left|now right|contradiction].
Qed.

Lemma preview_needs_setMode_witness :
  forallb (fun op => negb (isSetMode op)) sampleCalls = true /\
  exists w,
    run sampleCalls initialWorld = Normal w /\
    (mode (store w) = build \/ mode (store w) = ride).
Proof.
  assert (Hall : forallb (fun op => negb (isSetMode op)) sampleCalls = true)
    by reflexivity.
  split; [exact Hall|].
  destruct (run_total sampleCalls initialWorld) as [w Hrun].
  exists w. split; [exact Hrun|].
  exact (preview_needs_setMode sampleCalls w Hall Hrun).
Defined.

(** ** Loops: ids and direction *)


(** X9. [createLoopAtPoint] on the id of a point mints the next 18 counter
    values: [pointCounter] grows by 18, the track by 18 points, and the new
    points carry the ids [point-(c+1)] to [point-(c+18)] in track order,
    right after the anchor, between the old ids. *)
Theorem createLoopAtPoint_mints (w : World) (pid : string)
  (before after : list TrackPoint) (anchor : TrackPoint) :
  anchoredAt pid (trackPoints (store w)) before anchor after ->
  exists w',
    createLoopAtPoint pid w = Normal w' /\
    pointCounter w' = (pointCounter w + 18)%N /\
    length (trackPoints (store w'))
    = (length (trackPoints (store w)) + 18)%nat /\
    ids (trackPoints (store w'))
    = ids before ++ id anchor ::
      map (fun k => pointId (pointCounter w + k))
        [1; 2; 3; 4; 5; 6; 7; 8; 9; 10; 11; 12; 13; 14; 15; 16; 17; 18]%N
      ++ ids after.
Proof.
  intros (Hsplit & Hbefore & Hanchor).
  destruct (createLoopAtPoint_known pid w before after anchor Hsplit Hbefore
              Hanchor) as (direction & _ & Hloop).
  eexists. split; [exact Hloop|].
  cbn [pointCounter store trackPoints with_trackPoints].
  split; [apply loopPoints_counter|]. split.
  - rewrite Hsplit, !length_app. cbn [length].
    rewrite length_app, loopPoints_length. lia.
  - now rewrite ids_app, ids_cons, ids_app, loopPoints_ids.
Qed.

Lemma createLoopAtPoint_mints_witness :
  anchoredAt "point-2" (trackPoints (store twoPoints))
    [firstPoint] secondPoint [] /\
  exists w',
    createLoopAtPoint "point-2" twoPoints = Normal w' /\
    pointCounter w' = 20%N /\
    length (trackPoints (store w')) = 20%nat /\
    nth_error (ids (trackPoints (store w'))) 2 = Some "point-3"%string /\
    nth_error (ids (trackPoints (store w'))) 19 = Some "point-20"%string.
Proof.
  assert (Hanchored : anchoredAt "point-2" (trackPoints (store twoPoints))
                        [firstPoint] secondPoint []).
  { split; [reflexivity|]. split; [|reflexivity].
    intros point [<-|[]]. simpl. discriminate. }
  split; [exact Hanchored|].
  destruct (createLoopAtPoint_mints twoPoints "point-2" [firstPoint] []
              secondPoint Hanchored) as (w' & Hloop & Hcounter & Hlen & Hids).
  exists w'. split; [exact Hloop|]. split; [exact Hcounter|].
  split; [exact Hlen|]. rewrite Hids. split; reflexivity.
Defined.



(** ** Loop geometry *)







(** ** Direct setters *)

(** X13. The twelve direct setters are independent: two setters of
    different fields give the same state in either order, and of two
    setters of the same field the later one wins (so calling a setter twice
    with the same value is calling it once). *)
Theorem setters_independent (op1 op2 : Op) (f1 f2 : Field) (w : World) :
  setterOf op1 = Some f1 ->
  setterOf op2 = Some f2 ->
  (f1 <> f2 -> run [op1; op2] w = run [op2; op1] w) /\
  (f1 = f2 -> run [op1; op2] w = run [op2] w).
Proof.
  intros H1 H2.
  destruct op1; try discriminate H1; destruct op2; try discriminate H2;
    injection H1 as <-; injection H2 as <-;
    split; intros Hf; try reflexivity; try discriminate Hf;
    now destruct Hf.
Qed.

Lemma setters_independent_witness :
  setterOf (OpSetMode preview) = Some FMode /\
  setterOf (OpSetRideSpeed 2%R) = Some FRideSpeed /\
  run [OpSetMode preview; OpSetRideSpeed 2%R] twoPoints
  = run [OpSetRideSpeed 2%R; OpSetMode preview] twoPoints /\
  run [OpSetMode preview; OpSetMode ride] twoPoints
  = run [OpSetMode ride] twoPoints.
Proof.
  split; [reflexivity|]. split; [reflexivity|]. split.
  - apply (proj1 (setters_independent (OpSetMode preview) (OpSetRideSpeed 2%R)
                    FMode FRideSpeed twoPoints eq_refl eq_refl)).
    discriminate.
  - apply (proj2 (setters_independent (OpSetMode preview) (OpSetMode ride)
                    FMode FMode twoPoints eq_refl eq_refl)).
    reflexivity.
Defined.

(** ** New points hold copies *)

(** X14. [addTrackPoint] copies the position it is given.  When the
    caller's vector [p] holds [v], the call returns normally, appends one
    point with the next id, tilt 0 and a position that is a new object
    holding [v]: it is not [p], later writes into [p] do not reach it, the
    old points and every vector that existed are as they were; read by
    value, the new track is the one [addTrackPoint v] computes. *)
Theorem addTrackPoint_copies (p : Objects.ref) (v : Vector3.t) (w : World)
  (points : list Objects.TrackPointRef) (h : Objects.heap) :
  Objects.read h p = Some v ->
  exists r h',
    Objects.addTrackPoint p (pointCounter w) points h
    = Normal (pointCounter (addTrackPoint v w),
              points ++ [Objects.mkTrackPointRef
                           (pointId (N.succ (pointCounter w))) r 0%R],
              h') /\
    Objects.read h r = None /\
    Objects.read h' r = Some v /\
    r <> p /\
    (forall v', Objects.read (Objects.write h' p v') r = Some v) /\
    (forall r0 u, Objects.read h r0 = Some u -> Objects.read h' r0 = Some u) /\
    (Objects.valuesOf h points = Some (trackPoints (store w)) ->
     Objects.valuesOf h'
       (points ++ [Objects.mkTrackPointRef
                     (pointId (N.succ (pointCounter w))) r 0%R])
     = Some (trackPoints (store (addTrackPoint v w)))).
Proof.
  intros Hp.
  assert (Hbound : (p < length h)%nat).
  { apply nth_error_Some. unfold Objects.read in Hp. congruence. }
  assert (Hnew : Objects.read (h ++ [v]) (length h) = Some v).
  { rewrite <- (app_nil_r (h ++ [v])). apply read_new. }
  exists (length h), (h ++ [v]).
  unfold Objects.addTrackPoint, Objects.clone. rewrite Hp.
  cbn [defined bind Objects.alloc fst snd].
  split; [reflexivity|]. split; [|split; [|split; [|split; [|split]]]].
  - unfold Objects.read. apply nth_error_None. lia.
  - exact Hnew.
  - lia.
  - intros v'. rewrite read_write_other by lia. exact Hnew.
  - intros r0 u. apply read_extended.
  - intros Hvalues.
    apply (valuesOf_extended h [v]) in Hvalues.
    simpl trackPoints.
    revert Hvalues. generalize (trackPoints (store w)) as values.
    induction points as [|point rest IH]; intros values; simpl.
    + intros [= <-]. unfold Objects.valueOf. simpl. rewrite Hnew.
      now rewrite clone_value.
    + destruct (Objects.valueOf (h ++ [v]) point) as [value|];
        [|discriminate].
      destruct (Objects.valuesOf (h ++ [v]) rest) as [others|];
        [|discriminate].
      intros [= <-]. now rewrite (IH others eq_refl).
Qed.

Lemma addTrackPoint_copies_witness :
  Objects.read Objects.sampleHeap 2%nat = Some (Vector3.mk 9 9 9) /\
  exists r h',
    Objects.addTrackPoint 2%nat (pointCounter twoPoints) Objects.samplePoints
      Objects.sampleHeap
    = Normal (3%N,
              Objects.samplePoints
              ++ [Objects.mkTrackPointRef "point-3" r 0%R], h') /\
    r <> 2%nat /\
    Objects.read h' r = Some (Vector3.mk 9 9 9).
Proof.
  assert (Hp : Objects.read Objects.sampleHeap 2%nat
               = Some (Vector3.mk 9 9 9)) by reflexivity.
  split; [exact Hp|].
  destruct (addTrackPoint_copies 2%nat (Vector3.mk 9 9 9) twoPoints
              Objects.samplePoints Objects.sampleHeap Hp)
    as (r & h' & Hadd & _ & Hread & Hne & _).
  exists r, h'. split; [exact Hadd|]. split; [exact Hne|exact Hread].
Defined.

(** ** The panel *)

Lemma mode_eqb_eq (a b : CoasterMode) : mode_eqb a b = true <-> a = b.
Proof. destruct a, b; simpl; split; congruence. Qed.

Lemma in_GameUI (s : RollerCoasterState) (control : Control) :
  In control (GameUI s) ->
  (mode s = build /\ In control (buildPanel s)) \/
  (mode s = ride /\ In control (ridePanel s)).
Proof.
  unfold GameUI. intros Hin. apply in_app_or in Hin as [Hin|Hin].
  - destruct (mode_eqb (mode s) build) eqn:Hmode; [|destruct Hin].
    left. split; [now apply mode_eqb_eq|assumption].
  - destruct (mode_eqb (mode s) ride) eqn:Hmode; [|destruct Hin].
    right. split; [now apply mode_eqb_eq|assumption].
Qed.

Lemma in_buildPanel (s : RollerCoasterState) (control : Control) :
  In control (buildPanel s) ->
  control = StartRideButton (negb (canRide s)) \/
  control = ClearTrackButton (Z.of_nat (length (trackPoints s)) =? 0) \/
  (exists sel,
     selectedPointId s = Some sel /\ sel <> ""%string /\
     control = DeleteSelectedButton sel) \/
  control = RideSpeedSlider (rideSpeed s).
Proof.
  unfold buildPanel. intros [<-|[<-|Hin]]; [now left|now right; left|].
  right. right. simpl app in Hin.
  apply in_app_or in Hin as [Hin|[<-|[]]]; [left|now right].
  destruct (selectedPointId s) as [sel|]; simpl in Hin; [|destruct Hin].
  destruct (String.eqb_spec sel ""); simpl in Hin; [destruct Hin|].
  destruct Hin as [<-|[]]. now exists sel.
Qed.

(** Everything a gesture on the panel can do to the store. *)
Lemma panelStep_cases (w w' : World) :
  panelStep w w' ->
  pointCounter w' = pointCounter w /\
  ((mode (store w) = ride /\ store w' = stopRide (store w)) \/
   (mode (store w) = build /\
    ((canRide (store w) = true /\ store w' = startRide (store w)) \/
     (trackPoints (store w) <> [] /\ store w' = clearTrack (store w)) \/
     (exists sel,
        selectedPointId (store w) = Some sel /\ sel <> ""%string /\
        store w' = removeTrackPoint sel (store w)) \/
     (exists v, store w' = setRideSpeed v (store w))))).
Proof.
  intros [g op Hshown Hhandler Hstep].
  apply in_GameUI in Hshown as [[Hmode Hin]|[Hmode Hin]].
  - apply in_buildPanel in Hin
      as [Hc|[Hc|[(sel & Hsel & Hne & Hc)|Hc]]];
      destruct g as [control|control value]; simpl in Hc; subst control;
      simpl in Hhandler; try discriminate Hhandler.
    + destruct (canRide (store w)) eqn:Hcan; simpl in Hhandler;
        [|discriminate].
      injection Hhandler as <-. simpl in Hstep. apply Normal_inj in Hstep.
      subst w'. split; [reflexivity|]. right. split; [assumption|].
      left. now split.
    + destruct (Z.eqb_spec (Z.of_nat (length (trackPoints (store w)))) 0)
        as [Hzero|Hpos]; [discriminate|].
      injection Hhandler as <-. simpl in Hstep. apply Normal_inj in Hstep.
      subst w'. split; [reflexivity|]. right. split; [assumption|].
      right. left. split; [|reflexivity].
      intros Hnil. rewrite Hnil in Hpos. now apply Hpos.
    + injection Hhandler as <-. simpl in Hstep. apply Normal_inj in Hstep.
      subst w'. split; [reflexivity|]. right. split; [assumption|].
      right. right. left. now exists sel.
    + injection Hhandler as <-. simpl in Hstep. apply Normal_inj in Hstep.
      subst w'. split; [reflexivity|]. right. split; [assumption|].
      right. right. right. now exists value.
  - destruct Hin as [Hc|[Hc|[]]];
      destruct g as [control|control value]; simpl in Hc; subst control;
      simpl in Hhandler; try discriminate Hhandler.
    injection Hhandler as <-. simpl in Hstep. apply Normal_inj in Hstep.
    subst w'. split; [reflexivity|]. left. now split.
Qed.

(** X15. The Start Ride button mirrors the guard of [startRide].  It is
    shown in mode [build] only, enabled exactly when the track has two
    points or more; [startRide] from a state where it is enabled enters
    the ride (mode [ride], riding, progress 0) and the panel then shows
    Exit Ride; from a state where it is disabled [startRide] would change
    nothing. *)
Theorem start_button_mirrors_guard (s : RollerCoasterState)
  (disabled : bool) :
  In (StartRideButton disabled) (GameUI s) ->
  mode s = build /\
  (disabled = false <-> (2 <= length (trackPoints s))%nat) /\
  (disabled = false ->
   handler (Click (StartRideButton disabled)) = Some OpStartRide /\
   mode (startRide s) = ride /\
   isRiding (startRide s) = true /\
   rideProgress (startRide s) = 0%R /\
   In ExitRideButton (GameUI (startRide s))) /\
  (disabled = true ->
   handler (Click (StartRideButton disabled)) = None /\
   startRide s = s).
Proof.
  intros Hin.
  apply in_GameUI in Hin as [[Hmode Hin]|[_ [Hin|[Hin|[]]]]];
    try discriminate Hin.
  apply in_buildPanel in Hin as [Hc|[Hc|[(sel & _ & _ & Hc)|Hc]]];
    try discriminate Hc.
  injection Hc as ->. unfold canRide, startRide.
  split; [assumption|].
  destruct (Z.leb_spec 2 (Z.of_nat (length (trackPoints s)))) as [Hge|Hlt];
    simpl.
  - split; [split; [intros _; lia|reflexivity]|].
    split; [|discriminate].
    intros _. repeat split.
    unfold GameUI. simpl. right. now left.
  - split; [split; [discriminate|lia]|].
    split; [discriminate|]. intros _. now split.
Qed.

Lemma start_button_mirrors_guard_witness :
  In (StartRideButton false) (GameUI (store twoPoints)) /\
  In (StartRideButton true) (GameUI (store onePoint)) /\
  mode (startRide (store twoPoints)) = ride /\
  startRide (store onePoint) = store onePoint.
Proof.
  assert (Htwo : In (StartRideButton false) (GameUI (store twoPoints)))
    by (left; reflexivity).
  assert (Hone : In (StartRideButton true) (GameUI (store onePoint)))
    by (left; reflexivity).
  split; [exact Htwo|]. split; [exact Hone|]. split.
  - destruct (start_button_mirrors_guard (store twoPoints) false Htwo)
      as (_ & _ & Henabled & _).
    exact (proj1 (proj2 (Henabled eq_refl))).
  - destruct (start_button_mirrors_guard (store onePoint) true Hone)
      as (_ & _ & _ & Hdisabled).
    exact (proj2 (Hdisabled eq_refl)).
Defined.



(** X17. What the panel cannot do.  A gesture on the panel never changes
    [pointCounter] and never adds or edits a point (every point of the new
    track is a point of the old one); in mode [preview] the panel offers
    nothing, so no gesture reaches the store; in mode [ride] the only
    effect a gesture can have is [stopRide]. *)
Theorem panel_limits (w w' : World) :
  panelStep w w' ->
  pointCounter w' = pointCounter w /\
  (forall point,
     In point (trackPoints (store w')) -> In point (trackPoints (store w))) /\
  mode (store w) <> preview /\
  (mode (store w) = ride -> store w' = stopRide (store w)).
Proof.
  intros Hstep.
  destruct (panelStep_cases w w' Hstep)
    as [Hcounter [[Hmode Hstop]|[Hmode Hbuild]]].
  - split; [assumption|]. rewrite Hstop, Hmode.
    split; [intros point Hin; exact Hin|]. split; [discriminate|trivial].
  - split; [assumption|]. rewrite Hmode.
    split; [|split; [discriminate|discriminate]].
    intros point.
    destruct Hbuild as [[_ ->]|[[_ ->]|[(sel & _ & _ & ->)|[v ->]]]].
    + unfold startRide. now destruct (2 <=? _).
    + intros [].
    + simpl. intros Hin. now apply filter_In in Hin.
    + trivial.
Qed.

Lemma panel_limits_witness :
  panelStep rideStarted twoPoints /\
  pointCounter twoPoints = pointCounter rideStarted /\
  store twoPoints = stopRide (store rideStarted).
Proof.
  assert (Hstep : panelStep rideStarted twoPoints).
  { apply (panel_gesture rideStarted twoPoints (Click ExitRideButton)
             OpStopRide).
    - right. left. reflexivity.
    - reflexivity.
    - reflexivity. }
  split; [exact Hstep|].
  destruct (panel_limits rideStarted twoPoints Hstep)
    as (Hcounter & _ & _ & Hride).
  split; [exact Hcounter|]. apply Hride. reflexivity.
Defined.

Lemma rideConsistent_panelStep (w w' : World) :
  rideConsistent (store w) -> panelStep w w' -> rideConsistent (store w').
Proof.
  intros (Hpreview & Hriding & Htrack) Hstep.
  destruct (panelStep_cases w w' Hstep)
    as [_ [[Hmode ->]|[Hmode Hbuild]]].
  - unfold rideConsistent; simpl.
    split; [discriminate|]. split; [split; discriminate|discriminate].
  - assert (Hrest : isRiding (store w) = false).
    { destruct (isRiding (store w)); [|reflexivity].
      rewrite (proj1 Hriding eq_refl) in Hmode. discriminate. }
    destruct Hbuild as [[Hcan ->]|[[_ ->]|[(sel & _ & _ & ->)|[v ->]]]];
      unfold rideConsistent.
    + unfold canRide in Hcan. unfold startRide. rewrite Hcan. simpl.
      split; [discriminate|]. split; [tauto|].
      intros _. apply Z.leb_le in Hcan. lia.
    + simpl. rewrite Hmode.
      split; [discriminate|]. split; [split; discriminate|discriminate].
    + simpl. rewrite Hmode, Hrest.
      split; [discriminate|]. split; [split; discriminate|discriminate].
    + simpl. rewrite Hmode, Hrest.
      split; [discriminate|]. split; [split; discriminate|discriminate].
Qed.

(** X18. Through the panel a ride is always sound.  From a state in which
    the mode is not [preview], [isRiding] holds exactly in mode [ride] and
    a ride has a track of two points or more, every sequence of gestures
    on the panel leads to a state with the same three properties: the
    panel never starts a ride on fewer than two points and never leaves
    [isRiding] and the mode out of step. *)
Theorem panel_keeps_ride_consistent (w w' : World) :
  rideConsistent (store w) ->
  panelReachable w w' ->
  rideConsistent (store w').
Proof.
  intros Hstart Hreach.
  induction Hreach as [|w1 w2 Hreach IH Hstep].
  - exact Hstart.
  - exact (rideConsistent_panelStep w1 w2 IH Hstep).
Qed.

Lemma panel_keeps_ride_consistent_witness :
  rideConsistent (store twoPoints) /\
  panelReachable twoPoints rideStarted /\
  rideConsistent (store rideStarted).
Proof.
  assert (Hstart : rideConsistent (store twoPoints)).
  { split; [discriminate|]. split; [split; discriminate|discriminate]. }
  assert (Hreach : panelReachable twoPoints rideStarted).
  { apply (panel_then twoPoints twoPoints rideStarted); [apply panel_here|].
    apply (panel_gesture twoPoints rideStarted (Click (StartRideButton false))
             OpStartRide).
    - left. reflexivity.
    - reflexivity.
    - reflexivity. }
  split; [exact Hstart|]. split; [exact Hreach|].
  exact (panel_keeps_ride_consistent twoPoints rideStarted Hstart Hreach).
Defined.
